(** * zx: the command-execution core of [index.mjs]

    A shallow embedding of the template-based command builder [$], the
    shell detection that runs when the module is loaded, the directory
    change [cd] and the [ProcessOutput] class, followed by the properties
    the specification states about them.

    Conventions of the embedding.
    - A JavaScript string is a [string]: a sequence of characters whose code
      is below 256.  String concatenation ([+], [+=]) is [append].
    - [undefined] and [null] are the [None] of an [option]; each definition
      says which of the two its [None] stands for.
    - Interpolated values are strings or [ProcessOutput] objects, the two
      kinds [substitute] tells apart.
    - The host (node, the packages [which], [shq] and [chalk], the file
      system, the call stack, the child process) is not part of [index.mjs]:
      it enters as parameters of the functions that consult it.
    - What the program does to the outside world (console output, writes to
      the parent's streams, the spawning of a child) is recorded as a list
      of [effect]s, in the order the program performs them. *)

From Stdlib Require Import String Ascii List ZArith Bool Lia.
Import ListNotations.
Open Scope string_scope.

(** ** Characters and strings *)

Definition LF : ascii := "010"%char.

(** The class [\w] of a regular expression: letters, digits and underscore. *)
Definition is_word_char (c : ascii) : bool :=
  let n := nat_of_ascii c in
  (((48 <=? n) && (n <=? 57)) || ((65 <=? n) && (n <=? 90))
   || (n =? 95) || ((97 <=? n) && (n <=? 122)))%nat.

(** The class [\s], which is also what [String.prototype.trim] removes:
    white space and line terminators (tab, line feed, vertical tab, form
    feed, carriage return, space and no-break space, among the characters
    below 256). *)
Definition is_space_char (c : ascii) : bool :=
  let n := nat_of_ascii c in
  (((9 <=? n) && (n <=? 13)) || (n =? 32) || (n =? 160))%nat.

(** [s.replace(/\n$/, '')]: without the [m] flag [$] matches at the end of
    the input only, so the one possible match is a line feed that is the
    last character. *)
Fixpoint replace_trailing_newline (s : string) : string :=
  match s with
  | EmptyString => EmptyString
  | String c EmptyString => if Ascii.eqb c LF then EmptyString else s
  | String c rest => String c (replace_trailing_newline rest)
  end.

(** ** The class [ProcessOutput] *)

Module ProcessOutput.

(** The five private fields.  [code] is what the child's [exit] event
    delivers: a number, or [null] ([None]) when a signal ended the child. *)
Record t : Type := new {
  code : option Z;
  stdout : string;
  stderr : string;
  combined : string;
  __from : string
}.

(** The members the class declares: one method and four getters. *)
Inductive member : Type :=
| toString
| get_stdout
| get_stderr
| get_exitCode
| get___from.

(** What a member returns. *)
Inductive result : Type :=
| Str (s : string)
| Code (c : option Z).

(** Calling a member on an object: the value returned, and the object
    after the call. *)
Definition call (m : member) (this : t) : result * t :=
  match m with
  | toString => (Str (combined this), this)
  | get_stdout => (Str (stdout this), this)
  | get_stderr => (Str (stderr this), this)
  | get_exitCode => (Code (code this), this)
  | get___from => (Str (__from this), this)
  end.

Definition exitCode (this : t) : option Z := code this.

(** The property name under which the class body declares each member. *)
Definition name_of (m : member) : string :=
  match m with
  | toString => "toString"
  | get_stdout => "stdout"
  | get_stderr => "stderr"
  | get_exitCode => "exitCode"
  | get___from => "__from"
  end.

(** How the class body declares it: [toString() { ... }] is a method, the
    other four are getters ([get name() { ... }]).  The class body has no
    [set]: no member is a setter. *)
Inductive kind : Type :=
| Method
| Getter.

Definition kind_of (m : member) : kind :=
  match m with
  | toString => Method
  | _ => Getter
  end.

(** The members, in the order of the class body. *)
Definition members : list member :=
  [toString; get_stdout; get_stderr; get_exitCode; get___from].

(** The member the class declares under a property name, if any. *)
Definition declared (name : string) : option member :=
  find (fun m => String.eqb (name_of m) name) members.

(** The property names every object inherits from [Object.prototype]. *)
Definition object_prototype_names : list string :=
  ["constructor"; "__defineGetter__"; "__defineSetter__"; "hasOwnProperty";
   "__lookupGetter__"; "__lookupSetter__"; "isPrototypeOf";
   "propertyIsEnumerable"; "toString"; "valueOf"; "__proto__";
   "toLocaleString"].

(** What the expression [o.name] gives for an object as the constructor
    leaves it.  The five fields are private, so the object has no property
    of its own and the name is looked up in the class, then in
    [Object.prototype]: a getter runs, a method is the value itself, a name
    found in neither gives [undefined]. *)
Inductive value_read : Type :=
| Undefined
| Got (r : result)
| TheMethod (m : member)
| Inherited.

Definition read (name : string) (this : t) : value_read * t :=
  match declared name with
  | Some m =>
      match kind_of m with
      | Getter => let (r, this') := call m this in (Got r, this')
      | Method => (TheMethod m, this)
      end
  | None =>
      if existsb (String.eqb name) object_prototype_names
      then (Inherited, this) else (Undefined, this)
  end.

(** What the statement [o.name = v] does in a module (strict code): where
    the name is that of a getter, which has no setter beside it, the
    assignment throws a [TypeError]; under any other name it makes or
    changes a public property and reaches no private field. *)
Inductive assigned : Type :=
| Refused
| PublicProperty.

Definition assign (name : string) (this : t) : assigned * t :=
  match declared name with
  | Some m =>
      match kind_of m with
      | Getter => (Refused, this)
      | Method => (PublicProperty, this)
      end
  | None => (PublicProperty, this)
  end.

(** What a caller can do with an object it holds. *)
Inductive operation : Type :=
| Read (name : string)
| Assign (name : string)
| Call (m : member).

Definition perform (op : operation) (this : t) : t :=
  match op with
  | Read name => snd (read name this)
  | Assign name => snd (assign name this)
  | Call m => snd (call m this)
  end.

Definition perform_all (ops : list operation) (this : t) : t :=
  fold_left (fun o op => perform op o) ops this.

End ProcessOutput.

(** ** Interpolated values and [substitute] *)

(** The values the embedding covers: a string, or a [ProcessOutput].  A
    number, which [$.quote] would receive unconverted, is not covered, and
    the pieces of a template are strings throughout (a template literal
    with an invalid escape, whose piece is [undefined], is not covered). *)
Inductive value : Type :=
| VStr (s : string)
| VOut (o : ProcessOutput.t).

Definition substitute (arg : value) : string :=
  match arg with
  | VOut o => replace_trailing_newline (ProcessOutput.stdout o)
  | VStr s => s
  end.

(** ** String helpers of the host language used by the module *)

(** [s.split(sep)] for a separator that is not empty: the pieces of [s]
    between the occurrences of [sep], found from left to right without
    overlap.  [skip] counts the characters of an occurrence still to be
    passed over, [cur] is the piece being read. *)
Fixpoint split_from (sep s : string) (skip : nat) (cur : string) : list string :=
  match s with
  | EmptyString => [cur]
  | String c s' =>
      match skip with
      | S k => split_from sep s' k cur
      | O =>
          if String.prefix sep s
          then cur :: split_from sep s' (String.length sep - 1) ""
          else split_from sep s' 0 (cur ++ String c "")
      end
  end.

Definition split (sep s : string) : list string := split_from sep s 0 "".

Fixpoint trim_start (s : string) : string :=
  match s with
  | EmptyString => EmptyString
  | String c s' => if is_space_char c then trim_start s' else s
  end.

Fixpoint trim_end (s : string) : string :=
  match s with
  | EmptyString => EmptyString
  | String c s' =>
      match trim_end s' with
      | EmptyString => if is_space_char c then EmptyString else String c ""
      | r => String c r
      end
  end.

(** [s.trim()] *)
Definition trim (s : string) : string := trim_end (trim_start s).

(** The maximal run of [\w] characters at the start of a string, and what
    follows it. *)
Fixpoint span_word (s : string) : string * string :=
  match s with
  | EmptyString => ("", "")
  | String c s' =>
      if is_word_char c
      then let (w, rest) := span_word s' in (String c w, rest)
      else ("", s)
  end.

(** ToString of a value that is a string or [undefined] ([None]), as string
    concatenation applies it. *)
Definition js_string (x : option string) : string :=
  match x with
  | Some s => s
  | None => "undefined"
  end.

(** ** Effects, process-wide state and the monad of the module's functions *)

(** The options object handed to [exec]; [None] is a key that is not set. *)
Record exec_options : Type := {
  windowsHide : bool;
  opt_shell : option string;
  opt_cwd : option string
}.

Inductive effect : Type :=
| ConsoleLog (args : list string)
| ConsoleWarn (msg : string)
| ConsoleError (msg : string)
| StdoutWrite (data : string)
| StderrWrite (data : string)
| Exec (command : string) (options : exec_options).

(** The properties of the function object [$].  [cwd] and [shell] are
    [None] when the property is [undefined]. *)
Record Globals : Type := {
  verbose : bool;
  cwd : option string;
  quote : string -> string;
  prefix : string;
  shell : option string
}.

(** The assignments [$.verbose = v], [$.cwd = v], [$.quote = v],
    [$.prefix = v] and [$.shell = v]. *)
Definition with_verbose (v : bool) (g : Globals) : Globals :=
  {| verbose := v; cwd := cwd g; quote := quote g; prefix := prefix g;
     shell := shell g |}.

Definition with_cwd (v : option string) (g : Globals) : Globals :=
  {| verbose := verbose g; cwd := v; quote := quote g; prefix := prefix g;
     shell := shell g |}.

Definition with_quote (v : string -> string) (g : Globals) : Globals :=
  {| verbose := verbose g; cwd := cwd g; quote := v; prefix := prefix g;
     shell := shell g |}.

Definition with_prefix (v : string) (g : Globals) : Globals :=
  {| verbose := verbose g; cwd := cwd g; quote := quote g; prefix := v;
     shell := shell g |}.

Definition with_shell (v : option string) (g : Globals) : Globals :=
  {| verbose := verbose g; cwd := cwd g; quote := quote g; prefix := prefix g;
     shell := v |}.

Inductive exception : Type :=
| TypeError.

(** How a piece of the program ends: normally with a value, by an exception
    nobody catches, or by [process.exit]. *)
Inductive completion (A : Type) : Type :=
| Normal (a : A)
| Throw (e : exception)
| ProcessExit (status : Z).
Arguments Normal {A} a.
Arguments Throw {A} e.
Arguments ProcessExit {A} status.

(** A computation reads and updates the process-wide state and performs
    effects; after an exception or [process.exit] nothing more runs. *)
Definition proc (A : Type) : Type :=
  Globals -> list effect * completion (A * Globals).

Definition ret {A : Type} (a : A) : proc A :=
  fun g => ([], Normal (a, g)).

Definition bind {A B : Type} (m : proc A) (k : A -> proc B) : proc B :=
  fun g =>
    match m g with
    | (out, Normal (a, g')) =>
        let (out', r) := k a g' in ((out ++ out')%list, r)
    | (out, Throw e) => (out, Throw e)
    | (out, ProcessExit n) => (out, ProcessExit n)
    end.

Notation "x <- m ;; k" := (bind m (fun x => k))
  (at level 61, m at next level, right associativity).
Notation "m ;; k" := (bind m (fun _ => k))
  (at level 61, right associativity).

Definition get : proc Globals := fun g => ([], Normal (g, g)).
Definition put (g : Globals) : proc unit := fun _ => ([], Normal (tt, g)).
Definition emit (e : effect) : proc unit := fun g => ([e], Normal (tt, g)).
Definition throw {A : Type} (e : exception) : proc A := fun _ => ([], Throw e).
Definition process_exit {A : Type} (status : Z) : proc A :=
  fun _ => ([], ProcessExit status).
Definition when (b : bool) (m : proc unit) : proc unit :=
  if b then m else ret tt.

(** [(new Error().stack.split('at ')[2]).trim()]: [stack] is the text the
    host gives for the stack; when it has no third piece, [trim] is called
    on [undefined] and a [TypeError] is thrown. *)
Definition call_site (stack : string) : proc string :=
  match nth_error (split "at " stack) 2 with
  | Some frame => ret (trim frame)
  | None => throw TypeError
  end.

(** ** One invocation of [$] *)

(** The promise [$] returns. *)
Inductive promise : Type :=
| Pending
| Resolved (o : ProcessOutput.t)
| Rejected (o : ProcessOutput.t).

(** [resolve] and [reject] act on a pending promise only. *)
Definition settle (p outcome : promise) : promise :=
  match p with
  | Pending => outcome
  | _ => p
  end.

(** The variables the listeners of one invocation close over, and the
    promise the invocation returned. *)
Record invocation : Type := {
  __from : string;
  stdout : string;
  stderr : string;
  combined : string;
  returned : promise
}.

(** What the child process sends: a chunk on either stream, or its exit
    with a code ([None] is [null], the child was ended by a signal). *)
Inductive child_event : Type :=
| StdoutData (data : string)
| StderrData (data : string)
| ExitEvent (code : option Z).

(** [child.stdout.on('data', ...)] *)
Definition on_stdout_data (data : string) (inv : invocation) : proc invocation :=
  g <- get ;;
  when (verbose g) (emit (StdoutWrite data)) ;;
  ret {| __from := __from inv;
         stdout := stdout inv ++ data;
         stderr := stderr inv;
         combined := combined inv ++ data;
         returned := returned inv |}.

(** [child.stderr.on('data', ...)] *)
Definition on_stderr_data (data : string) (inv : invocation) : proc invocation :=
  g <- get ;;
  when (verbose g) (emit (StderrWrite data)) ;;
  ret {| __from := __from inv;
         stdout := stdout inv;
         stderr := stderr inv ++ data;
         combined := combined inv ++ data;
         returned := returned inv |}.

(** [child.on('exit', ...)] *)
Definition on_exit (code : option Z) (inv : invocation) : proc invocation :=
  let output :=
    ProcessOutput.new code (stdout inv) (stderr inv) (combined inv) (__from inv) in
  ret {| __from := __from inv;
         stdout := stdout inv;
         stderr := stderr inv;
         combined := combined inv;
         returned :=
           settle (returned inv)
             (match code with
              | Some 0%Z => Resolved output
              | _ => Rejected output
              end) |}.

Definition on_child_event (ev : child_event) (inv : invocation) : proc invocation :=
  match ev with
  | StdoutData data => on_stdout_data data inv
  | StderrData data => on_stderr_data data inv
  | ExitEvent code => on_exit code inv
  end.

(** The listeners run on the events of the child, in the order the events
    arrive. *)
Fixpoint on_child_events (evs : list child_event) (inv : invocation) : proc invocation :=
  match evs with
  | [] => ret inv
  | ev :: evs' => inv' <- on_child_event ev inv ;; on_child_events evs' inv'
  end.

(** The loop of [$] that builds the command:
    [while (i < args.length) cmd += $.quote(substitute(args[i])) + pieces[++i]].
    [args] is what remains of the arguments from index [i] on; [cmd] is
    [None] while it is [undefined]. *)
Fixpoint build_loop (quote : string -> string) (pieces : list string)
    (cmd : option string) (i : nat) (args : list value) : option string :=
  match args with
  | [] => cmd
  | arg :: args' =>
      build_loop quote pieces
        (Some (js_string cmd
                 ++ (quote (substitute arg) ++ js_string (nth_error pieces (S i)))))
        (S i) args'
  end.

(** [let cmd = pieces[0], i = 0] followed by the loop. *)
Definition build (quote : string -> string) (pieces : list string)
    (args : list value) : option string :=
  build_loop quote pieces (nth_error pieces 0) 0 args.

Section Host.

(** [chalk.greenBright] *)
Variable greenBright : string -> string.
(** [existsSync] of [fs] *)
Variable existsSync : string -> bool.

(** [cmd.replace(/^\w+\s/, substr => chalk.greenBright(substr))]: the
    pattern matches when the run of word characters at the start is not
    empty and a white-space character follows it. *)
Definition colorize (cmd : string) : string :=
  match span_word cmd with
  | (String _ _ as w, String c rest) =>
      if is_space_char c then greenBright (w ++ String c "") ++ rest else cmd
  | _ => cmd
  end.

(** [colorize] called on a command that may be [undefined]. *)
Definition colorize_value (cmd : option string) : proc string :=
  match cmd with
  | Some s => ret (colorize s)
  | None => throw TypeError
  end.

(** The function [$].  It returns once the child is spawned and the
    listeners are attached; the result holds the state the listeners
    share and the pending promise.  [Exec] records the call of [exec]; the
    result describes the call in which [exec] returns a child (where
    [exec] itself throws, the promise is rejected with that error and no
    listener is attached). *)
Definition dollar (stack : string) (pieces : list string) (args : list value)
  : proc invocation :=
  from <- call_site stack ;;
  g <- get ;;
  let cmd := build (quote g) pieces args in
  (if verbose g
   then shown <- colorize_value cmd ;; emit (ConsoleLog ["$"; shown])
   else ret tt) ;;
  g <- get ;;
  let options :=
    {| windowsHide := true; opt_shell := shell g; opt_cwd := cwd g |} in
  emit (Exec (prefix g ++ js_string cmd) options) ;;
  ret {| __from := from; stdout := ""; stderr := ""; combined := "";
         returned := Pending |}.

(** The function [cd]. *)
Definition cd (stack : string) (path : string) : proc unit :=
  g <- get ;;
  when (verbose g) (emit (ConsoleLog ["$"; colorize ("cd " ++ path)])) ;;
  if negb (existsSync path)
  then
    from <- call_site stack ;;
    emit (ConsoleError ("cd: " ++ path ++ ": No such directory")) ;;
    emit (ConsoleError ("  at " ++ from)) ;;
    process_exit 1
  else
    g <- get ;;
    put (with_cwd (Some path) g).

End Host.

(** The assignment [$.verbose = b] a caller makes. *)
Definition set_verbose (b : bool) : proc unit :=
  g <- get ;;
  put (with_verbose b g).

(** ** What runs when the module is loaded *)

Section Load.

(** [which.sync(cmd, { nothrow: true })]: the path of [cmd], or [null]
    ([None]) when the host has no such executable. *)
Variable which : string -> option string.
(** The package [shq]. *)
Variable shq : string -> string.

(** [whichSyncFallback]; [None] is the [undefined] it returns when the
    loop ends. *)
Fixpoint whichSyncFallback (cmds : list string) : option string :=
  match cmds with
  | [] => None
  | cmd :: cmds' =>
      match which cmd with
      | Some result => Some result
      | None => whichSyncFallback cmds'
      end
  end.

(** The condition of an [if] on a value that is a string, [null] or
    [undefined]: the empty string counts as false too. *)
Definition truthy (x : option string) : bool :=
  match x with
  | Some (String _ _) => true
  | _ => false
  end.

(** The state after [$.verbose = true], [$.cwd = undefined],
    [$.quote = (s) => s] and [$.prefix = '']; [$.shell] is not assigned yet. *)
Definition initial : Globals :=
  {| verbose := true; cwd := None; quote := fun s => s; prefix := "";
     shell := None |}.

(** The statements after the definition of [$], from [$.verbose = true]
    to the end of the [if]: the warnings printed and the state they leave. *)
Definition load : list effect * Globals :=
  let bash := which "bash" in
  if truthy bash then
    ([],
     with_quote shq (with_prefix "set -euo pipefail;" (with_shell bash initial)))
  else
    let other := whichSyncFallback ["pwsh"; "powershell"] in
    if truthy other then
      ([ConsoleWarn "Using powershell: no built-in quoting available yet."],
       with_shell other initial)
    else
      ([ConsoleWarn
          "Unknown shell. Falling back to nodejs default. No quoting available."],
       with_shell other initial).

End Load.

(** ** Vocabulary of the statements *)

(** The two streams of a child, and a chunk as it arrives: where it comes
    from and what it holds.  A list of chunks is in arrival order. *)
Inductive stream : Type :=
| Stdout
| Stderr.

Definition chunk : Type := (stream * string)%type.

Definition same_stream (a b : stream) : bool :=
  match a, b with
  | Stdout, Stdout | Stderr, Stderr => true
  | _, _ => false
  end.

(** The event by which the child delivers a chunk. *)
Definition data_event (c : chunk) : child_event :=
  match c with
  | (Stdout, data) => StdoutData data
  | (Stderr, data) => StderrData data
  end.

(** The write that mirrors a chunk on the parent's stream of the same name. *)
Definition mirror (c : chunk) : effect :=
  match c with
  | (Stdout, data) => StdoutWrite data
  | (Stderr, data) => StderrWrite data
  end.

(** The chunks of one stream, concatenated in arrival order. *)
Fixpoint received_on (from : stream) (cs : list chunk) : string :=
  match cs with
  | [] => ""
  | (s, data) :: cs' =>
      if same_stream s from then data ++ received_on from cs'
      else received_on from cs'
  end.

(** All chunks, of both streams, concatenated in arrival order. *)
Fixpoint received (cs : list chunk) : string :=
  match cs with
  | [] => ""
  | (_, data) :: cs' => data ++ received cs'
  end.

(** The interleaving of the specification:
    [segments[0] + quote(v0) + segments[1] + ... + segments[n]], every value
    first passed through [substitute]. *)
Fixpoint interleaving (quote : string -> string) (segments : list string)
    (values : list value) : string :=
  match segments, values with
  | seg :: segments', v :: values' =>
      seg ++ quote (substitute v) ++ interleaving quote segments' values'
  | seg :: _, [] => seg
  | [], _ => ""
  end.

(** The first name of a preference list that the host can resolve, with
    the path it resolves to. *)
Definition first_found (which : string -> option string) (names : list string)
  : option string :=
  hd_error
    (flat_map (fun name => match which name with
                           | Some path => [path]
                           | None => []
                           end) names).

(** Whether [sep] occurs in [s]. *)
Fixpoint contains (sep s : string) : bool :=
  match s with
  | EmptyString => String.prefix sep ""
  | String _ s' => String.prefix sep s || contains sep s'
  end.

(** The text node gives for the stack of [new Error()]: the line [Error],
    then a line for each frame, the innermost first, indented by four
    spaces and introduced by [at].  The first frame is the function that
    made the error, the second is its caller. *)
Fixpoint frame_lines (frames : list string) : string :=
  match frames with
  | [] => ""
  | frame :: frames' => String LF ("    at " ++ frame) ++ frame_lines frames'
  end.

Definition stack_of (frames : list string) : string :=
  "Error" ++ frame_lines frames.

(** ** Sample inputs, on which the statements below are instantiated *)

Definition line (s : string) : string := s ++ String LF "".

(** The stack of a call of [$] from the top level of a script. *)
Definition sample_stack : string :=
  stack_of ["$ (file:///zx/index.mjs:47:17)"; "file:///home/me/script.mjs:3:9"].

(** A host on which only [bash] is installed. *)
Definition which_bash_only (name : string) : option string :=
  if String.eqb name "bash" then Some "/usr/bin/bash" else None.

(** A host on which only [powershell] is installed. *)
Definition which_powershell_only (name : string) : option string :=
  if String.eqb name "powershell" then Some "C:/ps/powershell.exe" else None.

(** A host with no shell at all. *)
Definition which_nothing (name : string) : option string := None.

(** A quoting function that wraps its argument in single quotes. *)
Definition in_single_quotes (s : string) : string := "'" ++ s ++ "'".

(** A terminal without colours. *)
Definition no_colour (s : string) : string := s.


Definition sample_globals : Globals := snd (load which_bash_only in_single_quotes).

(** The invocation [$] returns for [$`ls`] called at [sample_stack]. *)
Definition sample_invocation : invocation :=
  {| __from := "file:///home/me/script.mjs:3:9";
     stdout := ""; stderr := ""; combined := ""; returned := Pending |}.

Definition sample_chunks : list chunk :=
  [(Stdout, "a"); (Stderr, "b"); (Stdout, line "c")].

(** ** The completer of [question] *)

(** The function [completer] that [question] gives to [createInterface]
    when [options.choices] is an array; [c.startsWith(line)] is
    [String.prefix line c].  It returns the pair [[suggestions, line]]. *)
Definition completer (choices : list string) (line : string)
  : list string * string :=
  let completions := choices in
  let hits := filter (fun c => String.prefix line c) completions in
  (match hits with
   | [] => completions
   | _ :: _ => hits
   end, line).

(** ** Further vocabulary *)

(** A string made of [\w] characters only. *)
Fixpoint all_word_chars (s : string) : bool :=
  match s with
  | EmptyString => true
  | String c s' => is_word_char c && all_word_chars s'
  end.

(** Whether the child's exit is among the events. *)
Fixpoint has_exit (evs : list child_event) : bool :=
  match evs with
  | [] => false
  | ExitEvent _ :: _ => true
  | _ :: evs' => has_exit evs'
  end.

(** The first [n] pieces as string concatenation reads them: a piece the
    template does not have reads as the text [undefined]. *)
Definition pieces_read (pieces : list string) (n : nat) : list string :=
  map (fun i => js_string (nth_error pieces i)) (seq 0 n).

(** Whether an effect spawns a child, and whether it prints to the error
    stream. *)
Definition is_exec (e : effect) : bool :=
  match e with
  | Exec _ _ => true
  | _ => false
  end.

Definition is_console_error (e : effect) : bool :=
  match e with
  | ConsoleError _ => true
  | _ => false
  end.

(** A host on which both [pwsh] and [powershell] are installed, and no
    [bash]. *)
Definition which_both_powershells (name : string) : option string :=
  if String.eqb name "pwsh" then Some "C:/ps7/pwsh.exe"
  else if String.eqb name "powershell" then Some "C:/ps/powershell.exe"
  else None.

(** A file system in which [/tmp] and [build] exist. *)
Definition tmp_and_build_exist (path : string) : bool :=
  String.eqb path "/tmp" || String.eqb path "build".

(** A colour function that shows what it was applied to. *)
Definition in_brackets (s : string) : string := "[" ++ s ++ "]".

(** The stack of a call of [$] from a function named [format]. *)
Definition format_stack : string :=
  stack_of ["$ (file:///zx/index.mjs:47:17)";
            "format (file:///home/me/script.mjs:3:9)"].



(** ** Tactics *)

(** Unfolds the operations of [proc], so that a computation on a given
    state reduces to the effects and the completion it yields. *)
Ltac unfold_proc :=
  unfold bind, get, put, emit, when, ret, throw, process_exit;
  cbv beta iota.

(** ** Lemmas on strings *)

Lemma append_nil_r (s : string) : s ++ "" = s.
Proof. induction s as [|c s IH]; simpl; [reflexivity | now rewrite IH]. Qed.

Lemma append_assoc (s t u : string) : (s ++ t) ++ u = s ++ (t ++ u).
Proof. induction s as [|c s IH]; simpl; [reflexivity | now rewrite IH]. Qed.

(** ** Lemmas on the listeners *)

Lemma on_data_events (g : Globals) (cs : list chunk) :
  forall inv,
    on_child_events (map data_event cs) inv g =
    (if verbose g then map mirror cs else [],
     Normal ({| __from := __from inv;
                stdout := stdout inv ++ received_on Stdout cs;
                stderr := stderr inv ++ received_on Stderr cs;
                combined := combined inv ++ received cs;
                returned := returned inv |}, g)).
Proof.
  induction cs as [|[[|] data] cs IH]; intros inv.
  - simpl. unfold ret. rewrite !append_nil_r. destruct inv, (verbose g); reflexivity.
  - cbn [map data_event on_child_events on_child_event].
    unfold bind at 1. unfold on_stdout_data. unfold_proc.
    destruct (verbose g); rewrite IH; cbn; rewrite !append_assoc; reflexivity.
  - cbn [map data_event on_child_events on_child_event].
    unfold bind at 1. unfold on_stderr_data. unfold_proc.
    destruct (verbose g); rewrite IH; cbn; rewrite !append_assoc; reflexivity.
Qed.

Lemma on_child_events_app (evs1 evs2 : list child_event) :
  forall inv g out1 inv1 g1,
    on_child_events evs1 inv g = (out1, Normal (inv1, g1)) ->
    on_child_events (evs1 ++ evs2)%list inv g =
    (let (out2, r) := on_child_events evs2 inv1 g1 in ((out1 ++ out2)%list, r)).
Proof.
  induction evs1 as [|ev evs1 IH]; intros inv g out1 inv1 g1 H.
  - cbn in H. unfold ret in H. inversion H; subst. cbn.
    destruct (on_child_events evs2 inv1 g1); reflexivity.
  - cbn [app on_child_events] in *. unfold bind in *.
    destruct (on_child_event ev inv g) as [o [[i' g'] | e | n]]; try discriminate.
    destruct (on_child_events evs1 i' g') as [o' r'] eqn:E.
    inversion H; subst.
    rewrite (IH _ _ _ _ _ E).
    destruct (on_child_events evs2 inv1 g1). now rewrite app_assoc.
Qed.

(** The chunks of a child followed by its exit: the promise, if pending,
    is settled with what was received, by the code alone. *)
Lemma on_chunks_then_exit (g : Globals) (cs : list chunk) (code : option Z)
    (inv : invocation) :
  on_child_events (map data_event cs ++ [ExitEvent code])%list inv g =
  (if verbose g then map mirror cs else [],
   Normal
     (let output :=
        ProcessOutput.new code
          (stdout inv ++ received_on Stdout cs)
          (stderr inv ++ received_on Stderr cs)
          (combined inv ++ received cs)
          (__from inv) in
      {| __from := __from inv;
         stdout := stdout inv ++ received_on Stdout cs;
         stderr := stderr inv ++ received_on Stderr cs;
         combined := combined inv ++ received cs;
         returned :=
           settle (returned inv)
             (match code with
              | Some 0%Z => Resolved output
              | _ => Rejected output
              end) |}, g)).
Proof.
  rewrite (on_child_events_app _ _ _ _ _ _ _ (on_data_events g cs inv)).
  cbn. rewrite app_nil_r. reflexivity.
Qed.

(** No listener throws or ends the process, none touches the process-wide
    state or the call site, and none changes a promise that is settled. *)
Lemma on_child_event_settled (ev : child_event) (inv : invocation) (g : Globals) :
  exists out inv',
    on_child_event ev inv g = (out, Normal (inv', g)) /\
    __from inv' = __from inv /\
    (returned inv <> Pending -> returned inv' = returned inv).
Proof.
  destruct ev as [data|data|code]; cbn;
    unfold on_stdout_data, on_stderr_data, on_exit; unfold_proc.
  - destruct (verbose g); cbn; do 2 eexists; repeat split.
  - destruct (verbose g); cbn; do 2 eexists; repeat split.
  - do 2 eexists. split; [reflexivity|]. split; [reflexivity|].
    cbn. destruct (returned inv); [contradiction | reflexivity | reflexivity].
Qed.

Lemma on_child_events_settled (evs : list child_event) :
  forall (inv : invocation) (g : Globals),
    returned inv <> Pending ->
    exists out inv',
      on_child_events evs inv g = (out, Normal (inv', g)) /\
      returned inv' = returned inv.
Proof.
  induction evs as [|ev evs IH]; intros inv g Hs.
  - do 2 eexists. split; reflexivity.
  - destruct (on_child_event_settled ev inv g) as (o1 & i1 & E1 & _ & K1).
    specialize (K1 Hs).
    destruct (IH i1 g) as (o2 & i2 & E2 & K2); [now rewrite K1|].
    cbn [on_child_events]. unfold bind. rewrite E1, E2.
    do 2 eexists. split; [reflexivity|]. now rewrite K2.
Qed.

(** A whole run of a child: chunks, the exit, and whatever the streams
    still deliver afterwards.  The promise is settled at the exit, by the
    code, with the chunks received until then. *)
Lemma on_run (g : Globals) (cs : list chunk) (code : option Z)
    (later : list child_event) (inv : invocation) :
  returned inv = Pending ->
  exists out inv',
    on_child_events (map data_event cs ++ ExitEvent code :: later)%list inv g
    = (out, Normal (inv', g)) /\
    returned inv' =
    (let output :=
       ProcessOutput.new code
         (stdout inv ++ received_on Stdout cs)
         (stderr inv ++ received_on Stderr cs)
         (combined inv ++ received cs)
         (__from inv) in
     match code with
     | Some 0%Z => Resolved output
     | _ => Rejected output
     end).
Proof.
  intros Hp.
  change (ExitEvent code :: later) with ([ExitEvent code] ++ later)%list.
  rewrite app_assoc.
  rewrite (on_child_events_app _ later _ _ _ _ _ (on_chunks_then_exit g cs code inv)).
  rewrite Hp. cbn [settle].
  match goal with
  | |- context [on_child_events later ?i g] =>
      destruct (on_child_events_settled later i g) as (o2 & i2 & E2 & K2)
  end.
  { cbn. destruct code as [[| |]|]; discriminate. }
  rewrite E2. do 2 eexists. split; [reflexivity|].
  rewrite K2. reflexivity.
Qed.

(** ** Lemmas on the call site *)

Lemma prefix_empty (s : string) : String.prefix "" s = true.
Proof. destruct s; reflexivity. Qed.

(** An occurrence of [at ] cannot run into a line feed. *)
Lemma prefix_at_before_LF (x b : string) :
  String.prefix "at " x = false ->
  String.prefix "at " (x ++ String LF b) = false.
Proof.
  destruct x as [|c1 [|c2 [|c3 x]]]; cbn -[ascii_dec]; intros H;
    repeat match goal with
           | |- context [ascii_dec ?a ?b] => destruct (ascii_dec a b)
           end; try reflexivity; try discriminate.
  destruct x; cbn in H; discriminate.
Qed.

(** [split] reads over a text in which the separator does not occur. *)
Lemma split_from_clean (a : string) :
  forall b cur,
    contains "at " a = false ->
    split_from "at " (a ++ String LF b) 0 cur
    = split_from "at " (String LF b) 0 (cur ++ a).
Proof.
  induction a as [|c a IH]; intros b cur H.
  - cbn [append]. now rewrite append_nil_r.
  - cbn [contains] in H. apply orb_false_iff in H. destruct H as [H1 H2].
    change (String c a ++ String LF b) with (String c (a ++ String LF b)).
    cbn [split_from].
    change (String c (a ++ String LF b)) with (String c a ++ String LF b).
    rewrite (prefix_at_before_LF _ b H1).
    rewrite (IH b _ H2). rewrite append_assoc. reflexivity.
Qed.

Lemma split_from_clean_end (a : string) :
  forall cur,
    contains "at " a = false ->
    split_from "at " a 0 cur = [cur ++ a].
Proof.
  induction a as [|c a IH]; intros cur H.
  - cbn. now rewrite append_nil_r.
  - cbn [contains] in H. apply orb_false_iff in H. destruct H as [H1 H2].
    cbn [split_from]. rewrite H1, (IH _ H2), append_assoc. reflexivity.
Qed.

(** The start of a frame line ends a piece and begins the next one. *)
Lemma split_from_frame_line (cur rest : string) :
  split_from "at " (String LF ("    at " ++ rest)) 0 cur
  = (cur ++ String LF "    ") :: split_from "at " rest 0 "".
Proof. cbn. rewrite prefix_empty, !append_assoc. reflexivity. Qed.

Lemma trim_end_spaces (a w : string) :
  trim_end w = "" -> trim_end (a ++ w) = trim_end a.
Proof.
  intros Hw. induction a as [|c a IH]; [exact Hw|].
  cbn [append trim_end]. rewrite IH. reflexivity.
Qed.

Lemma trim_start_spaces (a w : string) :
  trim_start w = "" ->
  trim_start (a ++ w)
  = match trim_start a with
    | EmptyString => EmptyString
    | r => r ++ w
    end.
Proof.
  intros Hw. induction a as [|c a IH]; [cbn; exact Hw|].
  cbn [append trim_start]. destruct (is_space_char c); [exact IH | reflexivity].
Qed.

Lemma trim_spaces (a w : string) :
  trim_start w = "" -> trim_end w = "" -> trim (a ++ w) = trim a.
Proof.
  intros Hs He. unfold trim. rewrite (trim_start_spaces a w Hs).
  destruct (trim_start a) as [|c r] eqn:E; [reflexivity|].
  apply trim_end_spaces, He.
Qed.

(** On a stack as node prints it, whose two innermost frames do not
    contain [at ] themselves, the third piece is the frame of the caller. *)
Lemma call_site_of_stack (callee caller : string) (outer : list string) :
  contains "at " callee = false ->
  contains "at " caller = false ->
  exists frame,
    nth_error (split "at " (stack_of (callee :: caller :: outer))) 2 = Some frame
    /\ trim frame = trim caller.
Proof.
  intros H1 H2. unfold stack_of, split.
  cbn [frame_lines].
  change (split_from "at " ("Error" ++ ?x) 0 "")
    with (split_from "at " x 0 "Error").
  change (String LF ("    at " ++ callee)
          ++ String LF ("    at " ++ caller) ++ frame_lines outer)
    with (String LF ("    at "
            ++ (callee ++ String LF ("    at " ++ (caller ++ frame_lines outer))))).
  rewrite split_from_frame_line, (split_from_clean callee _ _ H1).
  rewrite split_from_frame_line.
  destruct outer as [|frame outer].
  - cbn [frame_lines]. rewrite append_nil_r, (split_from_clean_end caller _ H2).
    eexists. split; reflexivity.
  - cbn [frame_lines].
    change (caller ++ String LF ("    at " ++ frame) ++ frame_lines outer)
      with (caller ++ String LF ("    at " ++ (frame ++ frame_lines outer))).
    rewrite (split_from_clean caller _ _ H2), split_from_frame_line.
    eexists. split; [reflexivity|].
    cbn [append]. apply trim_spaces; reflexivity.
Qed.

(** ** Lemmas on [$] *)

Section DollarFacts.

Variable greenBright : string -> string.

(** Where the stack names a caller and the command is defined, [$] echoes
    the command when verbose, spawns the child and returns a pending
    promise with empty buffers. *)
Lemma dollar_runs stack pieces args g frame cmd :
  nth_error (split "at " stack) 2 = Some frame ->
  build (quote g) pieces args = Some cmd ->
  dollar greenBright stack pieces args g =
  (((if verbose g then [ConsoleLog ["$"; colorize greenBright cmd]] else [])
    ++ [Exec (prefix g ++ cmd)
          {| windowsHide := true; opt_shell := shell g; opt_cwd := cwd g |}])%list,
   Normal ({| __from := trim frame; stdout := ""; stderr := ""; combined := "";
              returned := Pending |}, g)).
Proof.
  intros Hf Hc. unfold dollar, call_site, bind, get. rewrite Hf.
  unfold ret at 1. cbv beta iota. rewrite Hc.
  destruct (verbose g); reflexivity.
Qed.

(** Conversely, a call of [$] that returns has done exactly that. *)
Lemma dollar_started stack pieces args g out inv g' :
  dollar greenBright stack pieces args g = (out, Normal (inv, g')) ->
  g' = g /\
  stdout inv = "" /\ stderr inv = "" /\ combined inv = "" /\
  returned inv = Pending /\
  exists frame,
    nth_error (split "at " stack) 2 = Some frame /\
    __from inv = trim frame /\
    exists echo,
      out = (echo ++ [Exec (prefix g ++ js_string (build (quote g) pieces args))
                        {| windowsHide := true; opt_shell := shell g;
                           opt_cwd := cwd g |}])%list.
Proof.
  unfold dollar, call_site, bind, get, colorize_value.
  destruct (nth_error (split "at " stack) 2) as [frame|]; [|discriminate].
  unfold ret, emit, throw.
  destruct (verbose g); [destruct (build (quote g) pieces args) as [cmd|]|];
    cbn; intros H; try discriminate; inversion H; subst; cbn;
    repeat split; exists frame; repeat split.
  - now exists [ConsoleLog ["$"; colorize greenBright cmd]].
  - now exists [].
Qed.

End DollarFacts.

(** ** Lemmas on [cd] *)

Section CdFacts.

Variable greenBright : string -> string.
Variable existsSync : string -> bool.

Lemma cd_missing stack path g frame :
  existsSync path = false ->
  nth_error (split "at " stack) 2 = Some frame ->
  cd greenBright existsSync stack path g =
  (((if verbose g
     then [ConsoleLog ["$"; colorize greenBright ("cd " ++ path)]]
     else [])
    ++ [ConsoleError ("cd: " ++ path ++ ": No such directory");
        ConsoleError ("  at " ++ trim frame)])%list,
   ProcessExit 1).
Proof.
  intros He Hf. unfold cd, call_site, bind, get. cbv beta iota.
  rewrite He, Hf. destruct (verbose g); reflexivity.
Qed.

Lemma cd_existing stack path g :
  existsSync path = true ->
  cd greenBright existsSync stack path g =
  ((if verbose g
    then [ConsoleLog ["$"; colorize greenBright ("cd " ++ path)]]
    else []),
   Normal (tt, with_cwd (Some path) g)).
Proof.
  intros He. unfold cd. unfold_proc.
  rewrite He. cbn [negb].
  destruct (verbose g) eqn:V; cbn; rewrite ?V; reflexivity.
Qed.

Lemma cd_keeps_shell stack path g out g' :
  cd greenBright existsSync stack path g = (out, Normal (tt, g')) ->
  shell g' = shell g /\ prefix g' = prefix g /\ quote g' = quote g.
Proof.
  destruct (existsSync path) eqn:He.
  - rewrite (cd_existing _ _ _ He). intros H. inversion H; subst.
    repeat split.
  - unfold cd, call_site, bind, get. cbv beta iota. rewrite He. cbn [negb].
    destruct (nth_error (split "at " stack) 2);
      destruct (verbose g); cbn; discriminate.
Qed.

End CdFacts.

(** ** Lemmas on the command builder *)

Lemma skipn_cons_nth {A : Type} (l : list A) :
  forall i a rest,
    skipn i l = a :: rest ->
    nth_error l i = Some a /\ skipn (S i) l = rest.
Proof.
  induction l as [|x l IH]; intros [|i] a rest H; cbn in H; try discriminate.
  - inversion H; subst. split; reflexivity.
  - apply IH in H. exact H.
Qed.

(** The loop, entered at index [i] with the command read so far ending in
    [pieces[i]], appends what the interleaving of the remaining pieces and
    arguments still has to say. *)
Lemma build_loop_interleaving quote pieces :
  forall args i cmd seg rest,
    skipn i pieces = seg :: rest ->
    List.length rest = List.length args ->
    build_loop quote pieces (Some (cmd ++ seg)) i args =
    Some (cmd ++ interleaving quote (seg :: rest) args).
Proof.
  induction args as [|v vs IH]; intros i cmd seg rest Hs Hl.
  - reflexivity.
  - destruct rest as [|seg' rest']; [discriminate|].
    destruct (skipn_cons_nth _ _ _ _ Hs) as [_ Hs'].
    destruct (skipn_cons_nth _ _ _ _ Hs') as [Hn _].
    cbn [build_loop]. rewrite Hn. cbn [js_string].
    replace ((cmd ++ seg) ++ quote (substitute v) ++ seg')
      with ((cmd ++ seg ++ quote (substitute v)) ++ seg')
      by (rewrite !append_assoc; reflexivity).
    rewrite (IH (S i) _ seg' rest' Hs') by (cbn in Hl; lia).
    cbn [interleaving]. rewrite !append_assoc. reflexivity.
Qed.

Lemma replace_trailing_newline_strips (s : string) :
  replace_trailing_newline (s ++ String LF "") = s.
Proof.
  induction s as [|c s IH]; [reflexivity|].
  cbn [append replace_trailing_newline].
  destruct s as [|c' s']; cbn [append] in *; now rewrite IH.
Qed.

Lemma replace_trailing_newline_keeps (s : string) :
  (forall t, s <> t ++ String LF "") ->
  replace_trailing_newline s = s.
Proof.
  induction s as [|c s IH]; intros H; [reflexivity|].
  destruct s as [|c' s'].
  - cbn. destruct (Ascii.eqb_spec c LF) as [->|]; [|reflexivity].
    exfalso. now apply (H "").
  - change (String c (replace_trailing_newline (String c' s')) = String c (String c' s')).
    rewrite IH; [reflexivity|].
    intros t Ht. apply (H (String c t)). cbn. now rewrite <- Ht.
Qed.

(** ** Properties of the process runner *)

(** C1.  Once [$] has started a command, whatever chunks the child sends
    before it exits and whatever its streams deliver afterwards: when the
    child exits with code 0 the promise is resolved, and when it exits with
    any other code the promise is rejected, in both cases with a
    [ProcessOutput] built from that code, the three captured buffers and
    the call site. *)
Theorem exit_code_settles_promise
    (greenBright : string -> string) (stack : string) (pieces : list string)
    (args : list value) (g : Globals) (out : list effect) (inv : invocation)
    (g' : Globals) (cs : list chunk) (n : Z) (later : list child_event)
    (g1 : Globals) :
  dollar greenBright stack pieces args g = (out, Normal (inv, g')) ->
  exists out' inv',
    on_child_events (map data_event cs ++ ExitEvent (Some n) :: later)%list inv g1
    = (out', Normal (inv', g1)) /\
    let output :=
      ProcessOutput.new (Some n) (received_on Stdout cs) (received_on Stderr cs)
        (received cs) (__from inv) in
    ProcessOutput.exitCode output = Some n /\
    (n = 0%Z -> returned inv' = Resolved output) /\
    (n <> 0%Z -> returned inv' = Rejected output).
Proof.
  intros H.
  destruct (dollar_started _ _ _ _ _ _ _ _ H) as (_ & Ho & He & Hc & Hp & _).
  destruct (on_run g1 cs (Some n) later inv Hp) as (out' & inv' & E & R).
  rewrite Ho, He, Hc in R. cbn in R.
  exists out', inv'. split; [exact E|].
  cbn. split; [reflexivity|]. split.
  - intros ->. exact R.
  - intros Hn. destruct n; [contradiction | exact R | exact R].
Qed.

(** C9.  When a signal ends the child, the exit listener receives [null]
    for the code; [null] is not 0, so the promise is rejected, and the
    [exitCode] of the [ProcessOutput] it is rejected with is [null], which
    is no integer. *)
Theorem signal_exit_rejects_with_null_code
    (greenBright : string -> string) (stack : string) (pieces : list string)
    (args : list value) (g : Globals) (out : list effect) (inv : invocation)
    (g' : Globals) (cs : list chunk) (later : list child_event) (g1 : Globals) :
  dollar greenBright stack pieces args g = (out, Normal (inv, g')) ->
  exists out' inv' output,
    on_child_events (map data_event cs ++ ExitEvent None :: later)%list inv g1
    = (out', Normal (inv', g1)) /\
    returned inv' = Rejected output /\
    ProcessOutput.exitCode output = None /\
    (forall n : Z, ProcessOutput.exitCode output <> Some n).
Proof.
  intros H.
  destruct (dollar_started _ _ _ _ _ _ _ _ H) as (_ & _ & _ & _ & Hp & _).
  destruct (on_run g1 cs None later inv Hp) as (out' & inv' & E & R).
  exists out', inv'. eexists. split; [exact E|]. split; [exact R|].
  split; [reflexivity|]. intros n. discriminate.
Qed.

(** C7.  A chunk from stdout is appended to the stdout buffer and to the
    combined buffer, a chunk from stderr to the stderr buffer and to the
    combined buffer.  So, for an invocation started by [$], the
    [ProcessOutput] made when the child exits holds in [stdout] and
    [stderr] the chunks of each stream and in [combined] the chunks of
    both, each in arrival order; what arrives after the exit does not
    change it. *)
Theorem combined_preserves_arrival_order
    (greenBright : string -> string) (stack : string) (pieces : list string)
    (args : list value) (g : Globals) (out : list effect) (inv : invocation)
    (g' : Globals) :
  dollar greenBright stack pieces args g = (out, Normal (inv, g')) ->
  (forall (i : invocation) (data : string) (g1 : Globals),
      exists out1 i1 out2 i2,
        on_child_event (StdoutData data) i g1 = (out1, Normal (i1, g1)) /\
        stdout i1 = stdout i ++ data /\ stderr i1 = stderr i /\
        combined i1 = combined i ++ data /\
        on_child_event (StderrData data) i g1 = (out2, Normal (i2, g1)) /\
        stdout i2 = stdout i /\ stderr i2 = stderr i ++ data /\
        combined i2 = combined i ++ data) /\
  (forall (cs : list chunk) (code : option Z) (later : list child_event)
          (g1 : Globals),
      exists out' inv' output,
        on_child_events (map data_event cs ++ ExitEvent code :: later)%list inv g1
        = (out', Normal (inv', g1)) /\
        (returned inv' = Resolved output \/ returned inv' = Rejected output) /\
        ProcessOutput.stdout output = received_on Stdout cs /\
        ProcessOutput.stderr output = received_on Stderr cs /\
        ProcessOutput.combined output = received cs).
Proof.
  intros H.
  destruct (dollar_started _ _ _ _ _ _ _ _ H) as (_ & Ho & He & Hc & Hp & _).
  split.
  - intros i data g1. unfold on_child_event, on_stdout_data, on_stderr_data.
    unfold_proc.
    destruct (verbose g1); cbn; do 4 eexists; repeat split.
  - intros cs code later g1.
    destruct (on_run g1 cs code later inv Hp) as (out' & inv' & E & R).
    rewrite Ho, He, Hc in R. cbn in R.
    exists out', inv',
      (ProcessOutput.new code (received_on Stdout cs) (received_on Stderr cs)
         (received cs) (__from inv)).
    split; [exact E|]. split.
    + destruct code as [[| |]|]; [left | right | right | right]; exact R.
    + cbn. repeat split.
Qed.

(** ** Properties of the command builder *)

(** C2.  For a template of [n] literal segments and [n - 1] values, the
    command [$] builds is the interleaving
    [segments[0] + quote(v0) + segments[1] + ... + segments[n-1]], with the
    active quoting function applied to each substituted value and to no
    segment; it is this string, after the prefix, that [$] hands to [exec]. *)
Theorem build_is_interleaving
    (pieces : list string) (args : list value) :
  List.length pieces = S (List.length args) ->
  (forall quote : string -> string,
      build quote pieces args = Some (interleaving quote pieces args)) /\
  (forall (greenBright : string -> string) (stack frame : string) (g : Globals),
      nth_error (split "at " stack) 2 = Some frame ->
      exists echo options inv,
        dollar greenBright stack pieces args g =
        ((echo ++ [Exec (prefix g ++ interleaving (quote g) pieces args) options])%list,
         Normal (inv, g))).
Proof.
  intros Hlen.
  assert (B : forall quote, build quote pieces args
                            = Some (interleaving quote pieces args)).
  { intros quote. destruct pieces as [|seg rest]; [discriminate|].
    unfold build. cbn [nth_error].
    apply (build_loop_interleaving quote (seg :: rest) args 0 "" seg rest).
    - reflexivity.
    - cbn in Hlen. lia. }
  split; [exact B|].
  intros greenBright stack frame g Hf.
  rewrite (dollar_runs greenBright stack pieces args g frame _ Hf (B (quote g))).
  do 3 eexists. reflexivity.
Qed.

(** C3.  An interpolated [ProcessOutput] is replaced by its stdout without
    its last character when that is a line feed (so of several trailing
    line feeds one is removed) and by its stdout unchanged when it does not
    end in a line feed; a value that is no [ProcessOutput] is passed on as
    it is. *)
Theorem substitute_strips_one_newline :
  (forall (o : ProcessOutput.t) (s : string),
      ProcessOutput.stdout o = s ++ String LF "" ->
      substitute (VOut o) = s) /\
  (forall (o : ProcessOutput.t),
      (forall s, ProcessOutput.stdout o <> s ++ String LF "") ->
      substitute (VOut o) = ProcessOutput.stdout o) /\
  (forall s : string, substitute (VStr s) = s).
Proof.
  repeat split.
  - intros o s H. cbn. rewrite H. apply replace_trailing_newline_strips.
  - intros o H. cbn. now apply replace_trailing_newline_keeps.
Qed.

(** ** Properties of the shell detection *)

(** C4.  When [which] finds no [bash] as the module is loaded, [$.quote]
    stays the identity function, so a value is interpolated as it is, and
    one warning is printed, which says that no quoting is available. *)
Theorem no_posix_shell_means_identity_quote
    (which : string -> option string) (shq : string -> string) :
  truthy (which "bash") = false ->
  quote (snd (load which shq)) = (fun s => s) /\
  (forall s : string, quote (snd (load which shq)) s = s) /\
  (forall before s after : string,
      build (quote (snd (load which shq))) [before; after] [VStr s]
      = Some (before ++ s ++ after)) /\
  (fst (load which shq)
   = [ConsoleWarn "Using powershell: no built-in quoting available yet."]
   \/ fst (load which shq)
      = [ConsoleWarn
           "Unknown shell. Falling back to nodejs default. No quoting available."]).
Proof.
  intros Hb. unfold load. rewrite Hb.
  destruct (truthy (whichSyncFallback which ["pwsh"; "powershell"]));
    cbn; repeat split; auto.
Qed.

Lemma truthy_found (which : string -> option string) :
  (forall name path, which name = Some path -> path <> "") ->
  forall names,
    truthy (whichSyncFallback which names)
    = match whichSyncFallback which names with
      | Some _ => true
      | None => false
      end.
Proof.
  intros Hne names. induction names as [|name names IH]; [reflexivity|].
  cbn. destruct (which name) as [path|] eqn:E; [|exact IH].
  destruct path; [now apply Hne in E | reflexivity].
Qed.

Lemma whichSyncFallback_first_found (which : string -> option string) names :
  whichSyncFallback which names = first_found which names.
Proof.
  unfold first_found. induction names as [|name names IH]; [reflexivity|].
  cbn. destruct (which name); [reflexivity | exact IH].
Qed.

(** C5.  The shell is resolved by the statements that run when the module
    is loaded ([$] itself never consults [which]): [bash], [pwsh] and
    [powershell] are looked up in this order with a lookup that answers
    [null] for an absent name, and the first one found is [$.shell].  The
    prefix is [set -euo pipefail;] when [bash] was found and empty
    otherwise, and [$] puts it in front of every command it spawns. *)
Theorem shell_resolved_once_in_order
    (which : string -> option string) (shq : string -> string) :
  (forall name path, which name = Some path -> path <> "") ->
  let g := snd (load which shq) in
  shell g = first_found which ["bash"; "pwsh"; "powershell"] /\
  prefix g = match which "bash" with
             | Some _ => "set -euo pipefail;"
             | None => ""
             end /\
  (prefix g = "set -euo pipefail;" <-> which "bash" <> None) /\
  (forall (greenBright : string -> string) stack pieces args g1 out inv g2,
      prefix g1 = prefix g -> shell g1 = shell g ->
      dollar greenBright stack pieces args g1 = (out, Normal (inv, g2)) ->
      exists echo options,
        out = (echo ++ [Exec (prefix g ++ js_string (build (quote g1) pieces args))
                          options])%list /\
        opt_shell options = shell g /\
        g2 = g1) /\
  (forall (greenBright : string -> string) (existsSync : string -> bool)
          stack path g1 out g2,
      cd greenBright existsSync stack path g1 = (out, Normal (tt, g2)) ->
      shell g2 = shell g1 /\ prefix g2 = prefix g1 /\ quote g2 = quote g1).
Proof.
  intros Hne g.
  assert (Hs : shell g = first_found which ["bash"; "pwsh"; "powershell"]
               /\ prefix g = match which "bash" with
                             | Some _ => "set -euo pipefail;"
                             | None => ""
                             end).
  { subst g. unfold load.
    rewrite <- whichSyncFallback_first_found. cbn [whichSyncFallback].
    destruct (which "bash") as [p|] eqn:Eb.
    - assert (T : truthy (Some p) = true)
        by (destruct p; [now apply Hne in Eb | reflexivity]).
      rewrite T. split; reflexivity.
    - cbn [truthy]. destruct (truthy _); split; reflexivity. }
  destruct Hs as [Hs Hp].
  split; [exact Hs|]. split; [exact Hp|]. split; [split|split].
  - intros E. rewrite Hp in E. destruct (which "bash"); discriminate.
  - intros Hb. rewrite Hp. destruct (which "bash"); [reflexivity | contradiction].
  - intros greenBright stack pieces args g1 out inv g2 E1 E2 H.
    destruct (dollar_started _ _ _ _ _ _ _ _ H)
      as (-> & _ & _ & _ & _ & frame & _ & _ & echo & ->).
    exists echo. eexists. rewrite E1, <- E2. repeat split.
  - intros greenBright existsSync stack path g1 out g2 H.
    destruct (cd_keeps_shell _ _ _ _ _ _ _ H) as (? & ? & ?).
    repeat split; assumption.
Qed.

(** ** Properties of [cd] *)



(** ** Properties of [ProcessOutput] *)

Lemma call_keeps_fields (m : ProcessOutput.member) (o : ProcessOutput.t) :
  snd (ProcessOutput.call m o) = o.
Proof. destruct m; reflexivity. Qed.

Lemma perform_keeps_fields (op : ProcessOutput.operation) (o : ProcessOutput.t) :
  ProcessOutput.perform op o = o.
Proof.
  destruct op as [name|name|m]; cbn [ProcessOutput.perform].
  - unfold ProcessOutput.read.
    destruct (ProcessOutput.declared name) as [m|].
    + destruct (ProcessOutput.kind_of m); [reflexivity|].
      pose proof (call_keeps_fields m o) as K.
      destruct (ProcessOutput.call m o). exact K.
    + destruct (existsb _ _); reflexivity.
  - unfold ProcessOutput.assign.
    destruct (ProcessOutput.declared name) as [m|]; [|reflexivity].
    destruct (ProcessOutput.kind_of m); reflexivity.
  - apply call_keeps_fields.
Qed.

Lemma declared_is_named (name : string) (m : ProcessOutput.member) :
  ProcessOutput.declared name = Some m -> ProcessOutput.name_of m = name.
Proof.
  unfold ProcessOutput.declared. intros H.
  apply find_some in H. destruct H as [_ H]. now apply String.eqb_eq.
Qed.

(** The class gives no access to [combined] under that name: on an object
    whose combined stream is [outerr], the expression [o.combined] is
    [undefined]. *)
Lemma combined_has_no_accessor :
  ProcessOutput.combined (ProcessOutput.new (Some 0%Z) "out" "err" "outerr" "origin")
  = "outerr" /\
  ProcessOutput.declared "combined" = None /\
  ProcessOutput.read "combined"
    (ProcessOutput.new (Some 0%Z) "out" "err" "outerr" "origin")
  = (ProcessOutput.Undefined,
     ProcessOutput.new (Some 0%Z) "out" "err" "outerr" "origin").
Proof. repeat split. Qed.

(** C8.  The five fields of a [ProcessOutput] are private and never change
    after construction: whatever a caller reads, assigns or calls, they
    stay what the constructor received.  The class declares getters, and
    no setter, under exactly the names [stdout], [stderr], [exitCode] and
    [__from]; each returns the field it is named after, and an assignment
    to any of these names is refused.  The combined stream has no accessor
    ([o.combined] is [undefined]): it is what [toString] returns, and
    only that. *)
Theorem process_output_is_read_only
    (code : option Z) (out err comb from : string) :
  let this := ProcessOutput.new code out err comb from in
  (forall ops : list ProcessOutput.operation,
      ProcessOutput.perform_all ops this = this) /\
  ProcessOutput.read "stdout" this = (ProcessOutput.Got (ProcessOutput.Str out), this) /\
  ProcessOutput.read "stderr" this = (ProcessOutput.Got (ProcessOutput.Str err), this) /\
  ProcessOutput.read "exitCode" this
  = (ProcessOutput.Got (ProcessOutput.Code code), this) /\
  ProcessOutput.read "__from" this = (ProcessOutput.Got (ProcessOutput.Str from), this) /\
  ProcessOutput.read "combined" this = (ProcessOutput.Undefined, this) /\
  ProcessOutput.call ProcessOutput.toString this = (ProcessOutput.Str comb, this) /\
  (forall name : string,
      (exists m, ProcessOutput.declared name = Some m /\
                 ProcessOutput.kind_of m = ProcessOutput.Getter) <->
      In name ["stdout"; "stderr"; "exitCode"; "__from"]) /\
  (forall name : string,
      In name ["stdout"; "stderr"; "exitCode"; "__from"] ->
      ProcessOutput.assign name this = (ProcessOutput.Refused, this)).
Proof.
  intros this.
  split.
  { intros ops. unfold ProcessOutput.perform_all.
    induction ops as [|op ops IH]; [reflexivity|].
    cbn [fold_left]. now rewrite perform_keeps_fields. }
  do 6 (split; [reflexivity|]).
  split.
  - intros name. split.
    + intros (m & D & K). apply declared_is_named in D. subst name.
      destruct m; cbn in *; try discriminate; auto 6.
    + intros [<-|[<-|[<-|[<-|[]]]]]; eexists; split; reflexivity.
  - intros name [<-|[<-|[<-|[<-|[]]]]]; reflexivity.
Qed.

(** ** Properties of the verbosity flag *)


(** ** The statements at the sample inputs *)

Lemma sample_dollar_ls :
  dollar no_colour sample_stack ["ls"] [] sample_globals =
  ([ConsoleLog ["$"; "ls"];
    Exec "set -euo pipefail;ls"
      {| windowsHide := true; opt_shell := Some "/usr/bin/bash";
         opt_cwd := None |}],
   Normal (sample_invocation, sample_globals)).
Proof. reflexivity. Defined.

(** [$`ls`] whose child writes three chunks, exits with code 2 and has one
    more chunk delivered after that. *)
Lemma exit_code_settles_promise_witness :
  exists out' inv',
    on_child_events
      (map data_event sample_chunks ++ ExitEvent (Some 2%Z) :: [StdoutData "late"])%list
      sample_invocation sample_globals
    = (out', Normal (inv', sample_globals)) /\
    returned inv' =
    Rejected (ProcessOutput.new (Some 2%Z) ("a" ++ line "c") "b"
                ("ab" ++ line "c") "file:///home/me/script.mjs:3:9").
Proof.
  destruct (exit_code_settles_promise no_colour sample_stack ["ls"] []
              sample_globals _ _ _ sample_chunks 2 [StdoutData "late"]
              sample_globals sample_dollar_ls)
    as (out' & inv' & E & _ & _ & R).
  exists out', inv'. split; [exact E | apply R; discriminate].
Defined.

(** [$`ls`] whose child writes three chunks and is killed by a signal. *)
Lemma signal_exit_rejects_with_null_code_witness :
  exists out' inv' output,
    on_child_events (map data_event sample_chunks ++ ExitEvent None :: [])%list
      sample_invocation sample_globals
    = (out', Normal (inv', sample_globals)) /\
    returned inv' = Rejected output /\
    ProcessOutput.exitCode output = None /\
    (forall n : Z, ProcessOutput.exitCode output <> Some n).
Proof.
  exact (signal_exit_rejects_with_null_code no_colour sample_stack ["ls"] []
           sample_globals _ _ _ sample_chunks [] sample_globals sample_dollar_ls).
Defined.

(** The three sample chunks end up in the buffers in arrival order. *)
Lemma combined_preserves_arrival_order_witness :
  exists out' inv' output,
    on_child_events (map data_event sample_chunks ++ ExitEvent (Some 0%Z) :: [])%list
      sample_invocation sample_globals
    = (out', Normal (inv', sample_globals)) /\
    (returned inv' = Resolved output \/ returned inv' = Rejected output) /\
    ProcessOutput.stdout output = "a" ++ line "c" /\
    ProcessOutput.stderr output = "b" /\
    ProcessOutput.combined output = "ab" ++ line "c".
Proof.
  exact (proj2 (combined_preserves_arrival_order no_colour sample_stack ["ls"] []
                  sample_globals _ _ _ sample_dollar_ls)
           sample_chunks (Some 0%Z) [] sample_globals).
Defined.

(** [$`echo ${"a b"} > ${"f"}`] under [bash]. *)
Lemma build_is_interleaving_witness :
  List.length ["echo "; " > "; ""] = S (List.length [VStr "a b"; VStr "f"]) /\
  build in_single_quotes ["echo "; " > "; ""] [VStr "a b"; VStr "f"]
  = Some "echo 'a b' > 'f'".
Proof.
  split; [reflexivity|].
  exact (proj1 (build_is_interleaving ["echo "; " > "; ""]
                  [VStr "a b"; VStr "f"] eq_refl) in_single_quotes).
Defined.

(** A stdout of [42] followed by two line feeds keeps one of them; a stdout
    without a final line feed is kept whole. *)
Lemma substitute_strips_one_newline_witness :
  substitute (VOut (ProcessOutput.new (Some 0%Z) (line (line "42")) "" "" ""))
  = line "42"
  /\ substitute (VOut (ProcessOutput.new (Some 0%Z) "42" "" "" "")) = "42".
Proof.
  split.
  - exact (proj1 substitute_strips_one_newline
             (ProcessOutput.new (Some 0%Z) (line (line "42")) "" "" "")
             (line "42") eq_refl).
  - apply (proj1 (proj2 substitute_strips_one_newline)
             (ProcessOutput.new (Some 0%Z) "42" "" "" "")).
    intros [|c1 [|c2 [|c3 s]]]; cbn; discriminate.
Defined.

(** On a host without any shell a value with a space is interpolated as it
    is, and the warning is printed. *)
Lemma no_posix_shell_means_identity_quote_witness :
  truthy (which_nothing "bash") = false /\
  build (quote (snd (load which_nothing in_single_quotes))) ["echo "; ""] [VStr "a b"]
  = Some "echo a b" /\
  fst (load which_nothing in_single_quotes)
  = [ConsoleWarn
       "Unknown shell. Falling back to nodejs default. No quoting available."].
Proof.
  split; [reflexivity|].
  destruct (no_posix_shell_means_identity_quote which_nothing in_single_quotes eq_refl)
    as (_ & _ & B & _).
  split; [exact (B "echo " "a b" "") | reflexivity].
Defined.

(** On a host with [powershell] alone, that is the shell and the prefix is
    empty. *)
Lemma shell_resolved_once_in_order_witness :
  shell (snd (load which_powershell_only in_single_quotes)) = Some "C:/ps/powershell.exe"
  /\ prefix (snd (load which_powershell_only in_single_quotes)) = "".
Proof.
  assert (Hne : forall name path,
             which_powershell_only name = Some path -> path <> "").
  { intros name path. unfold which_powershell_only.
    destruct (String.eqb name "powershell"); intros H; inversion H; discriminate. }
  destruct (shell_resolved_once_in_order which_powershell_only in_single_quotes Hne)
    as (Hs & Hp & _).
  split; [exact Hs | exact Hp].
Defined.


(** Reading and assigning [stdout] on a sample object. *)
Lemma process_output_is_read_only_witness :
  ProcessOutput.read "stdout"
    (ProcessOutput.new (Some 0%Z) "out" "err" "outerr" "origin")
  = (ProcessOutput.Got (ProcessOutput.Str "out"),
     ProcessOutput.new (Some 0%Z) "out" "err" "outerr" "origin") /\
  ProcessOutput.assign "stdout"
    (ProcessOutput.new (Some 0%Z) "out" "err" "outerr" "origin")
  = (ProcessOutput.Refused,
     ProcessOutput.new (Some 0%Z) "out" "err" "outerr" "origin").
Proof.
  destruct (process_output_is_read_only (Some 0%Z) "out" "err" "outerr" "origin")
    as (_ & R & _ & _ & _ & _ & _ & _ & A).
  split; [exact R | exact (A "stdout" (or_introl eq_refl))].
Defined.


(** * Further properties of the module *)

(** ** [colorize] *)

Lemma space_is_no_word_char (c : ascii) :
  is_space_char c = true -> is_word_char c = false.
Proof.
  destruct c as [[] [] [] [] [] [] [] []]; cbn; intros H;
    first [reflexivity | discriminate].
Qed.

Lemma span_word_of_word (w : string) (c : ascii) (rest : string) :
  all_word_chars w = true ->
  is_word_char c = false ->
  span_word (w ++ String c rest) = (w, String c rest).
Proof.
  intros Hw Hc. induction w as [|a w IH].
  - cbn. now rewrite Hc.
  - cbn in Hw. apply andb_true_iff in Hw. destruct Hw as [Ha Hw].
    cbn [append span_word]. rewrite Ha, (IH Hw). reflexivity.
Qed.

Lemma span_word_splits (s : string) :
  all_word_chars (fst (span_word s)) = true /\
  s = fst (span_word s) ++ snd (span_word s) /\
  match snd (span_word s) with
  | EmptyString => True
  | String c _ => is_word_char c = false
  end.
Proof.
  induction s as [|a s IH]; [repeat split|].
  cbn [span_word]. destruct (is_word_char a) eqn:Ha.
  - destruct (span_word s) as [w rest]. cbn in *.
    destruct IH as (Hw & Hs & Hr). rewrite Ha, Hw.
    repeat split; [now rewrite Hs at 1 | exact Hr].
  - cbn. repeat split. exact Ha.
Qed.

(** X1.  A command that begins with a word (letters, digits, underscores)
    followed by a white-space character has exactly that word and that
    character coloured, and the rest follows unchanged.  So the echo of
    [cd] always shows [cd ] coloured and the path plain, and likewise for
    the text [fetch url]. *)
Theorem colorize_colours_first_word (greenBright : string -> string) :
  (forall (w : string) (c : ascii) (rest : string),
      w <> "" ->
      all_word_chars w = true ->
      is_space_char c = true ->
      colorize greenBright (w ++ String c rest)
      = greenBright (w ++ String c "") ++ rest) /\
  (forall path : string,
      colorize greenBright ("cd " ++ path) = greenBright "cd " ++ path) /\
  (forall url : string,
      colorize greenBright ("fetch " ++ url) = greenBright "fetch " ++ url).
Proof.
  assert (K : forall w c rest,
             w <> "" -> all_word_chars w = true -> is_space_char c = true ->
             colorize greenBright (w ++ String c rest)
             = greenBright (w ++ String c "") ++ rest).
  { intros w c rest Hn Hw Hc. unfold colorize.
    rewrite (span_word_of_word w c rest Hw (space_is_no_word_char c Hc)).
    destruct w as [|a w]; [contradiction|]. now rewrite Hc. }
  split; [exact K|]. split.
  - intros path. apply (K "cd" " "%char path); [discriminate | reflexivity..].
  - intros url. apply (K "fetch" " "%char url); [discriminate | reflexivity..].
Qed.

(** X2.  [colorize] never alters the text of a command: either it returns
    the command as it is, or it returns it with a leading token passed
    through [chalk.greenBright], the token being a non-empty word and the
    white-space character after it.  With a colour function that changes
    nothing the command comes back unchanged. *)
Theorem colorize_keeps_the_text
    (greenBright : string -> string) (cmd : string) :
  (colorize greenBright cmd = cmd \/
   exists w c rest,
     w <> "" /\ all_word_chars w = true /\ is_space_char c = true /\
     cmd = (w ++ String c "") ++ rest /\
     colorize greenBright cmd = greenBright (w ++ String c "") ++ rest) /\
  colorize (fun s => s) cmd = cmd.
Proof.
  assert (K : forall gb,
             colorize gb cmd = cmd \/
             exists w c rest,
               w <> "" /\ all_word_chars w = true /\ is_space_char c = true /\
               cmd = (w ++ String c "") ++ rest /\
               colorize gb cmd = gb (w ++ String c "") ++ rest).
  { intros gb. unfold colorize.
    destruct (span_word_splits cmd) as (Hw & Hs & _).
    destruct (span_word cmd) as [[|a w] [|c rest]]; cbn [fst snd] in *;
      try (left; reflexivity).
    destruct (is_space_char c) eqn:Hc; [|left; reflexivity].
    right. exists (String a w), c, rest.
    repeat split; try assumption; try discriminate.
    rewrite Hs at 1. rewrite append_assoc. reflexivity. }
  split; [apply K|].
  destruct (K (fun s => s)) as [E | (w & c & rest & _ & _ & _ & Hs & E)];
    [exact E | now rewrite E, Hs].
Qed.

(** X3.  Nothing is coloured when the command does not begin with a word
    character (a path such as [./build.sh] or [/bin/ls]), when the first
    word is followed by a character that is neither a word character nor
    white space ([git-lfs], [a.out]), or when the command is a single word. *)
Theorem colorize_leaves_other_commands
    (greenBright : string -> string) :
  (forall c rest,
      is_word_char c = false ->
      colorize greenBright (String c rest) = String c rest) /\
  (forall w c rest,
      all_word_chars w = true ->
      is_word_char c = false -> is_space_char c = false ->
      colorize greenBright (w ++ String c rest) = w ++ String c rest) /\
  (forall w,
      all_word_chars w = true -> colorize greenBright w = w).
Proof.
  split; [|split].
  - intros c rest Hc. unfold colorize. cbn. now rewrite Hc.
  - intros w c rest Hw Hc Hs. unfold colorize.
    rewrite (span_word_of_word w c rest Hw Hc).
    destruct w; [reflexivity | now rewrite Hs].
  - intros w Hw. unfold colorize.
    assert (E : span_word w = (w, "")).
    { induction w as [|a w IH]; [reflexivity|].
      cbn in Hw. apply andb_true_iff in Hw. destruct Hw as [Ha Hw].
      cbn. now rewrite Ha, (IH Hw). }
    rewrite E. destruct w; reflexivity.
Qed.

(** ** The command builder outside the template invariant *)

Lemma build_loop_reads quote pieces :
  forall args i cmd seg,
    build_loop quote pieces (Some (cmd ++ seg)) i args =
    Some (cmd ++ interleaving quote
                   (seg :: map (fun j => js_string (nth_error pieces j))
                             (seq (S i) (List.length args)))
                   args).
Proof.
  induction args as [|v vs IH]; intros i cmd seg; [reflexivity|].
  cbn [build_loop js_string List.length seq map interleaving].
  replace ((cmd ++ seg) ++ quote (substitute v) ++ js_string (nth_error pieces (S i)))
    with ((cmd ++ seg ++ quote (substitute v)) ++ js_string (nth_error pieces (S i)))
    by (rewrite !append_assoc; reflexivity).
  rewrite IH, !append_assoc. reflexivity.
Qed.

Lemma build_reads quote pieces v vs :
  build quote pieces (v :: vs) =
  Some (interleaving quote (pieces_read pieces (S (S (List.length vs)))) (v :: vs)).
Proof.
  unfold build, pieces_read.
  cbn [build_loop seq map interleaving].
  change (js_string (nth_error pieces 0)
          ++ quote (substitute v) ++ js_string (nth_error pieces 1))
    with (js_string (nth_error pieces 0)
          ++ (quote (substitute v) ++ js_string (nth_error pieces 1))).
  rewrite <- append_assoc.
  rewrite (build_loop_reads quote pieces vs 1
             (js_string (nth_error pieces 0) ++ quote (substitute v))
             (js_string (nth_error pieces 1))).
  rewrite !append_assoc. reflexivity.
Qed.

Lemma pieces_read_firstn pieces n :
  pieces_read (firstn n pieces) n = pieces_read pieces n.
Proof.
  unfold pieces_read. apply map_ext_in. intros i Hi.
  apply in_seq in Hi. rewrite nth_error_firstn.
  destruct (Nat.ltb_spec i n); [reflexivity | lia].
Qed.

(** X4.  For pieces that are strings and values that are strings or
    [ProcessOutput] objects, the builder is defined whatever the lengths
    of its two arrays.
    With at least one value it always yields a command: the interleaving
    of the values with the first [args.length + 1] pieces, a piece the
    template lacks being written as the text [undefined]; pieces beyond
    these are ignored.  With no value the command is the first piece, and
    it is [undefined] only when there is no piece either. *)
Theorem build_reads_missing_pieces_as_undefined
    (quote : string -> string) (pieces : list string) (args : list value) :
  (args <> [] ->
   build quote pieces args
   = Some (interleaving quote (pieces_read pieces (S (List.length args))) args)) /\
  build quote pieces [] = nth_error pieces 0 /\
  (build quote pieces args = None <-> pieces = [] /\ args = []) /\
  build quote pieces args = build quote (firstn (S (List.length args)) pieces) args.
Proof.
  split; [|split; [|split]].
  - destruct args as [|v vs]; [contradiction|]. intros _. apply build_reads.
  - reflexivity.
  - destruct args as [|v vs].
    + unfold build. cbn. destruct pieces; split.
      * intros _. now split.
      * reflexivity.
      * discriminate.
      * intros [H _]. discriminate.
    + rewrite build_reads. split; [discriminate | intros [_ H]; discriminate].
  - destruct args as [|v vs].
    + unfold build. cbn. destruct pieces; reflexivity.
    + rewrite !build_reads.
      cbn [List.length]. now rewrite pieces_read_firstn.
Qed.

(** ** How [$] ends *)

Lemma build_undefined_iff quote pieces args :
  build quote pieces args = None <-> pieces = [] /\ args = [].
Proof.
  destruct args as [|v vs].
  - unfold build. cbn. destruct pieces; split;
      [intros _; now split | reflexivity | discriminate | intros [H _]; discriminate].
  - rewrite build_reads. split; [discriminate | intros [_ H]; discriminate].
Qed.

(** X5.  For pieces that are strings and values that are strings or
    [ProcessOutput] objects, a call of [$] goes one of two ways.  Either it
    reaches [exec], and then it has printed at most the echo of the
    command, calls [exec] exactly once, as its last effect, and leaves the
    properties of [$] as they were; or it throws a [TypeError] before that,
    and then it has done nothing at all.  It throws exactly when the stack
    text has no third piece, or when it is verbose and called with no piece
    and no value.  It never calls [process.exit]. *)
Theorem dollar_spawns_once_or_throws_untouched
    (greenBright : string -> string) (stack : string) (pieces : list string)
    (args : list value) (g : Globals) :
  match dollar greenBright stack pieces args g with
  | (out, Normal (inv, g')) =>
      g' = g /\
      exists echo,
        out = (echo ++ [Exec (prefix g ++ js_string (build (quote g) pieces args))
                          {| windowsHide := true; opt_shell := shell g;
                             opt_cwd := cwd g |}])%list /\
        (echo = [] \/ exists shown, echo = [ConsoleLog ["$"; shown]])
  | (out, Throw TypeError) => out = []
  | (_, ProcessExit _) => False
  end /\
  (snd (dollar greenBright stack pieces args g) = Throw TypeError <->
   nth_error (split "at " stack) 2 = None \/
   (verbose g = true /\ pieces = [] /\ args = [])).
Proof.
  unfold dollar, call_site, colorize_value. unfold_proc.
  destruct (nth_error (split "at " stack) 2) as [frame|].
  - destruct (verbose g) eqn:V.
    + destruct (build (quote g) pieces args) as [cmd|] eqn:B; cbn.
      * split.
        -- split; [reflexivity|]. exists [ConsoleLog ["$"; colorize greenBright cmd]].
           split; [reflexivity|]. right. eexists. reflexivity.
        -- split; [discriminate|]. intros [H | (_ & Hp & Ha)]; [discriminate|].
           assert (N : build (quote g) pieces args = None)
             by (apply build_undefined_iff; now split).
           rewrite B in N. discriminate.
      * split; [reflexivity|]. split; [|reflexivity].
        intros _. right. split; [reflexivity|].
        now apply (build_undefined_iff (quote g)).
    + cbn. split.
      * split; [reflexivity|]. exists []. split; [reflexivity | now left].
      * split; [discriminate|]. intros [H | (H & _)]; discriminate.
  - cbn. split; [reflexivity|]. split; [|reflexivity]. intros _. now left.
Qed.

(** ** The fallback lookup *)

(** X6.  [whichSyncFallback] answers with the path of the first name the
    host knows: every name before it is unknown.  It answers [undefined]
    exactly when the host knows none of the names, in particular for the
    empty list. *)
Theorem whichSyncFallback_answers_first_known
    (which : string -> option string) (names : list string) :
  (whichSyncFallback which names = None <->
   forall name, In name names -> which name = None) /\
  (forall path,
      whichSyncFallback which names = Some path ->
      exists before name after,
        names = (before ++ name :: after)%list /\
        which name = Some path /\
        forall b, In b before -> which b = None).
Proof.
  induction names as [|name names [IHn IHs]].
  - split; [split; [intros _ n []|reflexivity] | discriminate].
  - cbn [whichSyncFallback]. destruct (which name) as [p|] eqn:E; split.
    + split; [discriminate|]. intros H.
      specialize (H name (or_introl eq_refl)). congruence.
    + intros path H. inversion H; subst.
      exists [], name, names. repeat split; [exact E | intros b []].
    + rewrite IHn. split.
      * intros H n [<-|Hn]; [exact E | now apply H].
      * intros H n Hn. apply H. now right.
    + intros path H. destruct (IHs path H) as (before & n & after & -> & Hw & Hb).
      exists (name :: before), n, after. repeat split; [exact Hw|].
      intros b [<-|Hi]; [exact E | now apply Hb].
Qed.

(** ** From the shell found at load to the command spawned *)




(** ** The promise and the capture over arbitrary runs *)

Lemma on_child_events_pending (evs : list child_event) :
  forall (inv : invocation) (g : Globals),
  exists out inv',
    on_child_events evs inv g = (out, Normal (inv', g)) /\
    (returned inv' = Pending <-> returned inv = Pending /\ has_exit evs = false).
Proof.
  induction evs as [|ev evs IH]; intros inv g.
  - do 2 eexists. split; [reflexivity|]. cbn. intuition.
  - destruct (on_child_event_settled ev inv g) as (o1 & i1 & E1 & _ & K1).
    destruct (IH i1 g) as (o2 & i2 & E2 & K2).
    cbn [on_child_events]. unfold bind. rewrite E1, E2.
    do 2 eexists. split; [reflexivity|]. rewrite K2.
    destruct ev as [data|data|code]; cbn [has_exit].
    + assert (R : returned i1 = returned inv).
      { cbn in E1. unfold on_stdout_data in E1. revert E1. unfold_proc.
        destruct (verbose g); cbn; intros E1; inversion E1; reflexivity. }
      now rewrite R.
    + assert (R : returned i1 = returned inv).
      { cbn in E1. unfold on_stderr_data in E1. revert E1. unfold_proc.
        destruct (verbose g); cbn; intros E1; inversion E1; reflexivity. }
      now rewrite R.
    + assert (R : returned i1 <> Pending).
      { cbn in E1. unfold on_exit, ret in E1. inversion E1; subst. cbn.
        destruct (returned inv); [|discriminate..].
        cbn. destruct code as [[| |]|]; discriminate. }
      split; [intros [H _]; contradiction | intros [_ H]; discriminate].
Qed.

(** X10.  Once the listeners are attached and while the promise is
    pending, the promise stays pending for as long as the child has not
    exited, however much output arrives, and it is settled as soon as the
    events include an exit: no output, no quantity of output and no other
    event ever settles it. *)
Theorem promise_pending_until_exit
    (evs : list child_event) (inv : invocation) (g1 : Globals) :
  returned inv = Pending ->
  exists out' inv',
    on_child_events evs inv g1 = (out', Normal (inv', g1)) /\
    (returned inv' = Pending <-> has_exit evs = false).
Proof.
  intros Hp.
  destruct (on_child_events_pending evs inv g1) as (out' & inv' & E & K).
  exists out', inv'. split; [exact E|]. rewrite K. intuition.
Qed.

(** X11.  What the listeners capture and how the promise is settled do not
    depend on the properties of [$]: the same events leave the same
    buffers and the same promise whether the run is verbose or not, and
    whatever the working directory or the shell.  A run that is not
    verbose writes nothing to the parent's streams. *)
Theorem capture_does_not_depend_on_verbosity
    (evs : list child_event) (inv : invocation) (g1 g2 : Globals) :
  exists out1 out2 inv',
    on_child_events evs inv g1 = (out1, Normal (inv', g1)) /\
    on_child_events evs inv g2 = (out2, Normal (inv', g2)) /\
    (verbose g1 = false -> out1 = []).
Proof.
  revert inv. induction evs as [|ev evs IH]; intros inv.
  - exists [], [], inv. repeat split.
  - assert (S : exists o1 o2 i1,
               on_child_event ev inv g1 = (o1, Normal (i1, g1)) /\
               on_child_event ev inv g2 = (o2, Normal (i1, g2)) /\
               (verbose g1 = false -> o1 = [])).
    { destruct ev as [data|data|code]; cbn;
        unfold on_stdout_data, on_stderr_data, on_exit; unfold_proc.
      - destruct (verbose g1), (verbose g2); cbn; do 3 eexists;
          repeat split; intros; first [reflexivity | discriminate].
      - destruct (verbose g1), (verbose g2); cbn; do 3 eexists;
          repeat split; intros; first [reflexivity | discriminate].
      - do 3 eexists. repeat split. }
    destruct S as (o1 & o2 & i1 & E1 & E2 & Q1).
    destruct (IH i1) as (p1 & p2 & i2 & F1 & F2 & Q2).
    cbn [on_child_events]. unfold bind. rewrite E1, E2, F1, F2.
    do 3 eexists. split; [reflexivity|]. split; [reflexivity|].
    intros V. now rewrite (Q1 V), (Q2 V).
Qed.

(** X12.  The verbosity flag is read at every chunk, not once for the
    invocation: when a caller clears it while a child is running, the
    chunks that arrived before are mirrored, those that arrive after are
    not, and the buffers hold all of them. *)
Theorem verbosity_is_read_at_every_chunk
    (cs1 cs2 : list chunk) (inv : invocation) (g : Globals) :
  verbose g = true ->
  exists inv',
    (inv1 <- on_child_events (map data_event cs1) inv ;;
     set_verbose false ;;
     on_child_events (map data_event cs2) inv1) g
    = (map mirror cs1, Normal (inv', with_verbose false g)) /\
    stdout inv' = stdout inv ++ received_on Stdout cs1 ++ received_on Stdout cs2 /\
    stderr inv' = stderr inv ++ received_on Stderr cs1 ++ received_on Stderr cs2 /\
    combined inv' = combined inv ++ received cs1 ++ received cs2.
Proof.
  intros V. unfold bind at 1. rewrite on_data_events, V.
  cbv beta iota delta [bind set_verbose get put].
  rewrite on_data_events. cbn [verbose with_verbose app].
  eexists. split; [now rewrite !app_nil_r|].
  cbn. rewrite !append_assoc. repeat split.
Qed.

(** ** One command feeding the next *)

(** X13.  Chaining: when a command has succeeded and what it wrote to
    stdout ends in a line feed, interpolating its result in the next
    template inserts that stdout without the final line feed, quoted like
    any other value; what the command wrote to stderr, and what arrived
    after its exit, play no part. *)
Theorem chained_result_is_stdout_without_final_newline
    (greenBright : string -> string) (stack : string) (pieces : list string)
    (args : list value) (g : Globals) (out : list effect) (inv : invocation)
    (g' : Globals) (cs : list chunk) (s : string) (later : list child_event)
    (g1 : Globals) :
  dollar greenBright stack pieces args g = (out, Normal (inv, g')) ->
  received_on Stdout cs = s ++ String LF "" ->
  exists out' inv' output,
    on_child_events (map data_event cs ++ ExitEvent (Some 0%Z) :: later)%list inv g1
    = (out', Normal (inv', g1)) /\
    returned inv' = Resolved output /\
    forall (quote : string -> string) (before after : string),
      build quote [before; after] [VOut output]
      = Some (before ++ quote s ++ after).
Proof.
  intros H Hs.
  destruct (dollar_started _ _ _ _ _ _ _ _ H) as (_ & Ho & _ & _ & Hp & _).
  destruct (on_run g1 cs (Some 0%Z) later inv Hp) as (out' & inv' & E & R).
  cbn in R. do 3 eexists. split; [exact E|]. split; [exact R|].
  intros quote before after. unfold build. cbn.
  rewrite Ho. cbn [append]. rewrite Hs, replace_trailing_newline_strips.
  reflexivity.
Qed.

(** ** More on [cd] *)

(** X14.  Each successful [cd] replaces [$.cwd] by the path it was given:
    a second [cd] is not taken relative to the first, its path is tested
    and stored as it is, so that after two of them the state is the one the
    second alone would have left. *)
Theorem cd_replaces_the_directory
    (greenBright : string -> string) (existsSync : string -> bool)
    (stack1 stack2 path1 path2 : string) (g : Globals) :
  existsSync path1 = true ->
  existsSync path2 = true ->
  exists echo1 echo2,
    (cd greenBright existsSync stack1 path1 ;;
     cd greenBright existsSync stack2 path2) g
    = ((echo1 ++ echo2)%list, Normal (tt, with_cwd (Some path2) g)) /\
    cd greenBright existsSync stack2 path2 g
    = (echo2, Normal (tt, with_cwd (Some path2) g)) /\
    cwd (with_cwd (Some path2) g) = Some path2.
Proof.
  intros H1 H2. unfold bind.
  rewrite (cd_existing _ _ stack1 path1 g H1).
  rewrite (cd_existing _ _ stack2 path2 _ H2).
  rewrite (cd_existing _ _ stack2 path2 g H2).
  cbn [verbose with_cwd]. do 2 eexists.
  split; [reflexivity|]. split; reflexivity.
Qed.

(** X15.  The three ways [cd] can end.  It returns only for a path that
    exists, having changed [$.cwd] and nothing else and printed nothing to
    the error stream.  It ends the process, with status 1 and after exactly
    two lines on the error stream, only for a path that does not exist.  It
    throws only for a path that does not exist when the stack text has no
    third piece, and then nothing was printed to the error stream.  In no
    case does it spawn a child. *)
Theorem cd_ends_in_one_of_three_ways
    (greenBright : string -> string) (existsSync : string -> bool)
    (stack path : string) (g : Globals) :
  match cd greenBright existsSync stack path g with
  | (out, Normal (_, g')) =>
      existsSync path = true /\ g' = with_cwd (Some path) g /\
      filter is_console_error out = []
  | (out, ProcessExit status) =>
      existsSync path = false /\ status = 1%Z /\
      List.length (filter is_console_error out) = 2
  | (out, Throw TypeError) =>
      existsSync path = false /\ nth_error (split "at " stack) 2 = None /\
      filter is_console_error out = []
  end /\
  filter is_exec (fst (cd greenBright existsSync stack path g)) = [].
Proof.
  destruct (existsSync path) eqn:He.
  - rewrite (cd_existing _ _ stack path g He).
    destruct (verbose g); cbn; repeat split.
  - destruct (nth_error (split "at " stack) 2) as [frame|] eqn:Hf.
    + rewrite (cd_missing _ _ stack path g frame He Hf).
      destruct (verbose g); cbn; repeat split.
    + unfold cd, call_site. unfold_proc. rewrite He, Hf. cbn [negb].
      destruct (verbose g); cbn; repeat split.
Qed.

(** ** The origin [$] records *)

(** X16.  On a stack as node prints it, where neither the frame of [$]
    itself nor the frame of its caller contains the text [at ], the origin
    [$] records is the frame of the caller, and that is the [__from] of the
    [ProcessOutput] the promise is settled with, however the child ends. *)
Theorem origin_is_the_frame_of_the_caller
    (greenBright : string -> string) (callee caller : string)
    (outer : list string) (pieces : list string) (args : list value)
    (g : Globals) (out : list effect) (inv : invocation) (g' : Globals) :
  contains "at " callee = false ->
  contains "at " caller = false ->
  dollar greenBright (stack_of (callee :: caller :: outer)) pieces args g
  = (out, Normal (inv, g')) ->
  __from inv = trim caller /\
  forall (cs : list chunk) (code : option Z) (later : list child_event)
         (g1 : Globals),
  exists out' inv' output,
    on_child_events (map data_event cs ++ ExitEvent code :: later)%list inv g1
    = (out', Normal (inv', g1)) /\
    (returned inv' = Resolved output \/ returned inv' = Rejected output) /\
    ProcessOutput.__from output = trim caller.
Proof.
  intros H1 H2 H.
  destruct (dollar_started _ _ _ _ _ _ _ _ H)
    as (_ & _ & _ & _ & Hp & frame & Hf & Hfrom & _).
  destruct (call_site_of_stack callee caller outer H1 H2) as (frame' & Hf' & Ht).
  rewrite Hf in Hf'. inversion Hf'; subst frame'.
  assert (O : __from inv = trim caller) by now rewrite Hfrom.
  split; [exact O|].
  intros cs code later g1.
  destruct (on_run g1 cs code later inv Hp) as (out' & inv' & E & R).
  cbn in R.
  exists out', inv',
    (ProcessOutput.new code (stdout inv ++ received_on Stdout cs)
       (stderr inv ++ received_on Stderr cs) (combined inv ++ received cs)
       (__from inv)).
  split; [exact E|]. split; [|exact O].
  destruct code as [[| |]|]; [left | right | right | right]; exact R.
Qed.

(** An occurrence of [at ] that starts before another one cannot run into
    it. *)
Lemma prefix_at_before_at (x rest : string) :
  x <> "" ->
  String.prefix "at " x = false ->
  String.prefix "at " (x ++ "at " ++ rest) = false.
Proof.
  destruct x as [|c1 [|c2 [|c3 x]]]; cbn -[ascii_dec]; intros Hn H;
    [contradiction| | |];
    repeat match goal with
           | |- context [ascii_dec ?a ?b] => destruct (ascii_dec a b)
           end; try reflexivity; try discriminate.
  destruct x; cbn in H; discriminate.
Qed.

Lemma split_from_clean_at (a : string) :
  forall rest cur,
    contains "at " a = false ->
    split_from "at " (a ++ "at " ++ rest) 0 cur
    = (cur ++ a) :: split_from "at " rest 0 "".
Proof.
  induction a as [|c a IH]; intros rest cur H.
  - cbn. now rewrite prefix_empty, append_nil_r.
  - cbn [contains] in H. apply orb_false_iff in H. destruct H as [H1 H2].
    change (String c a ++ "at " ++ rest) with (String c (a ++ "at " ++ rest)).
    cbn [split_from].
    change (String c (a ++ "at " ++ rest)) with (String c a ++ "at " ++ rest).
    assert (Hn : String c a <> "") by discriminate.
    rewrite (prefix_at_before_at (String c a) rest Hn H1).
    rewrite (IH rest _ H2), append_assoc. reflexivity.
Qed.

Lemma call_site_cut_in_callers_frame (callee a b : string) (outer : list string) :
  contains "at " callee = false ->
  contains "at " a = false ->
  nth_error (split "at " (stack_of (callee :: (a ++ "at " ++ b) :: outer))) 2
  = Some a.
Proof.
  intros H1 H2. unfold stack_of, split. cbn [frame_lines].
  change (split_from "at " ("Error" ++ ?x) 0 "")
    with (split_from "at " x 0 "Error").
  assert (E : (a ++ "at " ++ b) ++ frame_lines outer
              = a ++ "at " ++ (b ++ frame_lines outer))
    by (rewrite append_assoc; reflexivity).
  change (String LF ("    at " ++ callee)
          ++ String LF ("    at " ++ a ++ "at " ++ b) ++ frame_lines outer)
    with (String LF ("    at "
            ++ (callee ++ String LF ("    at "
                  ++ ((a ++ "at " ++ b) ++ frame_lines outer))))).
  rewrite E.
  rewrite split_from_frame_line, (split_from_clean callee _ _ H1).
  rewrite split_from_frame_line, (split_from_clean_at a _ _ H2).
  reflexivity.
Qed.

(** X17.  The origin is read from the text of the stack, so it is the
    caller's whole frame only while that frame is free of [at ].  When the
    frame of the caller contains [at ] (the caller is a function named
    [format], say), the origin recorded is what precedes the first [at ]
    in that frame, trimmed. *)
Theorem origin_is_cut_at_an_at_in_the_callers_frame
    (greenBright : string -> string) (callee a b : string)
    (outer : list string) (pieces : list string) (args : list value)
    (g : Globals) (out : list effect) (inv : invocation) (g' : Globals) :
  contains "at " callee = false ->
  contains "at " a = false ->
  dollar greenBright (stack_of (callee :: (a ++ "at " ++ b) :: outer)) pieces args g
  = (out, Normal (inv, g')) ->
  __from inv = trim a.
Proof.
  intros H1 H2 H.
  destruct (dollar_started _ _ _ _ _ _ _ _ H)
    as (_ & _ & _ & _ & _ & frame & Hf & Hfrom & _).
  rewrite (call_site_cut_in_callers_frame callee a b outer H1 H2) in Hf.
  inversion Hf; subst frame. exact Hfrom.
Qed.

Lemma trim_start_head (s : string) :
  trim_start s = "" \/
  exists c t, trim_start s = String c t /\ is_space_char c = false.
Proof.
  induction s as [|c s IH]; [now left|].
  cbn. destruct (is_space_char c) eqn:E; [exact IH|].
  right. now exists c, s.
Qed.

Lemma trim_end_head (c : ascii) (t : string) :
  is_space_char c = false ->
  exists r, trim_end (String c t) = String c r.
Proof.
  intros E. cbn. destruct (trim_end t); rewrite ?E; eexists; reflexivity.
Qed.

Lemma trim_end_idempotent (s : string) : trim_end (trim_end s) = trim_end s.
Proof.
  induction s as [|c s IH]; [reflexivity|].
  cbn [trim_end]. destruct (trim_end s) as [|c' r] eqn:E.
  - destruct (is_space_char c) eqn:Hc; [reflexivity|]. cbn. now rewrite Hc.
  - cbn [trim_end] in *. now rewrite IH.
Qed.

Lemma trim_is_trimmed (s : string) :
  trim_start (trim s) = trim s /\ trim_end (trim s) = trim s.
Proof.
  unfold trim. split; [|apply trim_end_idempotent].
  destruct (trim_start_head s) as [-> | (c & t & -> & Hc)]; [reflexivity|].
  destruct (trim_end_head c t Hc) as (r & ->). cbn. now rewrite Hc.
Qed.

(** X18.  The origin [$] records never begins or ends with white space:
    trimming it at either end, or at both, gives it back. *)
Theorem origin_is_trimmed
    (greenBright : string -> string) (stack : string) (pieces : list string)
    (args : list value) (g : Globals) (out : list effect) (inv : invocation)
    (g' : Globals) :
  dollar greenBright stack pieces args g = (out, Normal (inv, g')) ->
  trim_start (__from inv) = __from inv /\
  trim_end (__from inv) = __from inv /\
  trim (__from inv) = __from inv.
Proof.
  intros H.
  destruct (dollar_started _ _ _ _ _ _ _ _ H)
    as (_ & _ & _ & _ & _ & frame & _ & -> & _).
  destruct (trim_is_trimmed frame) as [Hs He].
  split; [exact Hs|]. split; [exact He|].
  unfold trim at 1. now rewrite Hs, He.
Qed.

(** ** The completer of [question] *)

Lemma prefix_refl (s : string) : String.prefix s s = true.
Proof.
  induction s as [|c s IH]; [reflexivity|].
  cbn -[ascii_dec]. destruct (ascii_dec c c); [exact IH | contradiction].
Qed.

(** X19.  The completer suggests the choices that start with what was
    typed, in the order of the choices, when there is such a choice, and
    all the choices when there is none; so it suggests nothing only when
    there are no choices.  A suggestion is always one of the choices, and
    the line typed is handed back unchanged. *)
Theorem completer_suggests_matches_or_all
    (choices : list string) (line : string) :
  snd (completer choices line) = line /\
  (forall c, In c (fst (completer choices line)) -> In c choices) /\
  ((exists c, In c choices /\ String.prefix line c = true) ->
   fst (completer choices line)
   = filter (fun c => String.prefix line c) choices /\
   forall c, In c (fst (completer choices line)) <->
             In c choices /\ String.prefix line c = true) /\
  ((forall c, In c choices -> String.prefix line c = false) ->
   fst (completer choices line) = choices) /\
  (fst (completer choices line) = [] <-> choices = []).
Proof.
  unfold completer. cbn [fst snd].
  destruct (filter (fun c => String.prefix line c) choices) as [|h hits] eqn:F.
  - assert (N : forall c, In c choices -> String.prefix line c = false).
    { intros c Hc. destruct (String.prefix line c) eqn:E; [|reflexivity].
      assert (I : In c (filter (fun c => String.prefix line c) choices))
        by (apply filter_In; now split).
      rewrite F in I. destruct I. }
    split; [reflexivity|]. split; [auto|]. split; [|split].
    + intros (c & Hc & Hp). rewrite (N c Hc) in Hp. discriminate.
    + reflexivity.
    + reflexivity.
  - split; [reflexivity|]. split; [|split; [|split]].
    + intros c Hc. rewrite <- F in Hc. now apply filter_In in Hc.
    + intros _. split; [reflexivity|]. intros c. rewrite <- F. apply filter_In.
    + intros N. assert (I : In h (filter (fun c => String.prefix line c) choices))
        by (rewrite F; now left).
      apply filter_In in I. destruct I as [Hc Hp].
      rewrite (N h Hc) in Hp. discriminate.
    + split; [discriminate|]. intros ->. discriminate.
Qed.

(** X20.  On an empty line the completer suggests every choice.  A line
    that is itself a choice is among its own suggestions.  Completing the
    same line over the suggestions gives the suggestions again. *)
Theorem completer_on_empty_line_and_again
    (choices : list string) (line : string) :
  fst (completer choices "") = choices /\
  (In line choices -> In line (fst (completer choices line))) /\
  fst (completer (fst (completer choices line)) line)
  = fst (completer choices line).
Proof.
  split; [|split].
  - unfold completer. cbn [fst].
    assert (E : filter (fun c => String.prefix "" c) choices = choices).
    { induction choices as [|c cs IH]; [reflexivity|].
      cbn [filter]. now rewrite prefix_empty, IH. }
    rewrite E. destruct choices; reflexivity.
  - intros Hl. unfold completer. cbn [fst].
    assert (I : In line (filter (fun c => String.prefix line c) choices))
      by (apply filter_In; split; [exact Hl | apply prefix_refl]).
    destruct (filter (fun c => String.prefix line c) choices); [destruct I | exact I].
  - unfold completer. cbn [fst].
    destruct (filter (fun c => String.prefix line c) choices) as [|h hits] eqn:F.
    + now rewrite F.
    + assert (E : filter (fun c => String.prefix line c) (h :: hits) = h :: hits).
      { rewrite <- F. clear F. induction choices as [|c cs IH]; [reflexivity|].
        cbn [filter]. destruct (String.prefix line c) eqn:P; [|exact IH].
        cbn [filter]. now rewrite P, IH. }
      now rewrite E.
Qed.

(** ** [$] and [cd] in sequence *)


(** ** The further properties at sample inputs *)

Lemma colorize_colours_first_word_witness :
  colorize in_brackets "git status" = "[git ]status" /\
  colorize in_brackets "cd /tmp" = "[cd ]/tmp".
Proof.
  split.
  - exact (proj1 (colorize_colours_first_word in_brackets) "git" " "%char "status"
             ltac:(discriminate) eq_refl eq_refl).
  - exact (proj1 (proj2 (colorize_colours_first_word in_brackets)) "/tmp").
Defined.

Lemma colorize_leaves_other_commands_witness :
  colorize in_brackets "./build.sh --all" = "./build.sh --all" /\
  colorize in_brackets "git-lfs pull" = "git-lfs pull" /\
  colorize in_brackets "ls" = "ls".
Proof.
  destruct (colorize_leaves_other_commands in_brackets) as (A & B & C).
  split; [|split].
  - exact (A "."%char "/build.sh --all" eq_refl).
  - exact (B "git" "-"%char "lfs pull" eq_refl eq_refl eq_refl).
  - exact (C "ls" eq_refl).
Defined.

(** Two values for a template with one piece. *)
Lemma build_reads_missing_pieces_as_undefined_witness :
  build in_single_quotes ["echo "] [VStr "a"; VStr "b"]
  = Some "echo 'a'undefined'b'undefined".
Proof.
  exact (proj1 (build_reads_missing_pieces_as_undefined in_single_quotes
                  ["echo "] [VStr "a"; VStr "b"]) ltac:(discriminate)).
Defined.

Lemma whichSyncFallback_answers_first_known_witness :
  exists before name after,
    ["bash"; "pwsh"; "powershell"] = (before ++ name :: after)%list /\
    which_both_powershells name = Some "C:/ps7/pwsh.exe" /\
    forall b, In b before -> which_both_powershells b = None.
Proof.
  exact (proj2 (whichSyncFallback_answers_first_known which_both_powershells
                  ["bash"; "pwsh"; "powershell"]) "C:/ps7/pwsh.exe" eq_refl).
Defined.




(** Output without an exit leaves the promise pending. *)
Lemma promise_pending_until_exit_witness :
  exists out' inv',
    on_child_events (map data_event sample_chunks) sample_invocation sample_globals
    = (out', Normal (inv', sample_globals)) /\
    returned inv' = Pending.
Proof.
  destruct (promise_pending_until_exit (map data_event sample_chunks)
              sample_invocation sample_globals eq_refl)
    as (out' & inv' & E & K).
  exists out', inv'. split; [exact E | apply K; reflexivity].
Defined.

Lemma verbosity_is_read_at_every_chunk_witness :
  exists inv',
    (inv1 <- on_child_events (map data_event [(Stdout, "a")]) sample_invocation ;;
     set_verbose false ;;
     on_child_events (map data_event [(Stdout, "b")]) inv1) sample_globals
    = ([StdoutWrite "a"], Normal (inv', with_verbose false sample_globals)) /\
    stdout inv' = "ab".
Proof.
  destruct (verbosity_is_read_at_every_chunk [(Stdout, "a")] [(Stdout, "b")]
              sample_invocation sample_globals eq_refl)
    as (inv' & E & S & _).
  exists inv'. split; [exact E | exact S].
Defined.

(** The sample chunks, whose stdout is [ac] and a line feed, followed by a
    successful exit, then interpolated in [echo ${...}]. *)
Lemma chained_result_is_stdout_without_final_newline_witness :
  exists out' inv' output,
    on_child_events (map data_event sample_chunks ++ ExitEvent (Some 0%Z) :: [])%list
      sample_invocation sample_globals
    = (out', Normal (inv', sample_globals)) /\
    returned inv' = Resolved output /\
    build in_single_quotes ["echo "; ""] [VOut output] = Some "echo 'ac'".
Proof.
  destruct (chained_result_is_stdout_without_final_newline no_colour sample_stack
              ["ls"] [] sample_globals _ _ _ sample_chunks "ac" []
              sample_globals sample_dollar_ls eq_refl)
    as (out' & inv' & output & E & R & B).
  exists out', inv', output.
  split; [exact E|]. split; [exact R | exact (B in_single_quotes "echo " "")].
Defined.

Lemma cd_replaces_the_directory_witness :
  exists echo,
    (cd no_colour tmp_and_build_exist sample_stack "/tmp" ;;
     cd no_colour tmp_and_build_exist sample_stack "build") sample_globals
    = (echo, Normal (tt, with_cwd (Some "build") sample_globals)).
Proof.
  destruct (cd_replaces_the_directory no_colour tmp_and_build_exist sample_stack
              sample_stack "/tmp" "build" sample_globals eq_refl eq_refl)
    as (echo1 & echo2 & E & _).
  exists (echo1 ++ echo2)%list. exact E.
Defined.

Lemma origin_is_the_frame_of_the_caller_witness :
  __from sample_invocation = "file:///home/me/script.mjs:3:9".
Proof.
  exact (proj1 (origin_is_the_frame_of_the_caller no_colour
                  "$ (file:///zx/index.mjs:47:17)"
                  "file:///home/me/script.mjs:3:9" [] ["ls"] []
                  sample_globals _ _ _ eq_refl eq_refl sample_dollar_ls)).
Defined.

Lemma sample_dollar_format :
  dollar no_colour format_stack ["ls"] [] sample_globals =
  ([ConsoleLog ["$"; "ls"];
    Exec "set -euo pipefail;ls"
      {| windowsHide := true; opt_shell := Some "/usr/bin/bash";
         opt_cwd := None |}],
   Normal ({| __from := "form";
              stdout := ""; stderr := ""; combined := "";
              returned := Pending |}, sample_globals)).
Proof. reflexivity. Defined.

Lemma origin_is_cut_at_an_at_in_the_callers_frame_witness :
  exists out inv,
    dollar no_colour format_stack ["ls"] [] sample_globals
    = (out, Normal (inv, sample_globals)) /\
    __from inv = "form".
Proof.
  do 2 eexists. split; [exact sample_dollar_format|].
  exact (origin_is_cut_at_an_at_in_the_callers_frame no_colour
           "$ (file:///zx/index.mjs:47:17)" "form"
           "(file:///home/me/script.mjs:3:9)" [] ["ls"] []
           sample_globals _ _ _ eq_refl eq_refl sample_dollar_format).
Defined.

Lemma origin_is_trimmed_witness :
  trim_start (__from sample_invocation) = __from sample_invocation /\
  trim_end (__from sample_invocation) = __from sample_invocation /\
  trim (__from sample_invocation) = __from sample_invocation.
Proof.
  exact (origin_is_trimmed no_colour sample_stack ["ls"] [] sample_globals
           _ _ _ sample_dollar_ls).
Defined.

Lemma completer_suggests_matches_or_all_witness :
  fst (completer ["yes"; "no"; "yep"] "ye") = ["yes"; "yep"] /\
  fst (completer ["yes"; "no"; "yep"] "x") = ["yes"; "no"; "yep"].
Proof.
  split.
  - destruct (completer_suggests_matches_or_all ["yes"; "no"; "yep"] "ye")
      as (_ & _ & M & _).
    exact (proj1 (M (ex_intro _ "yes" (conj (or_introl eq_refl) eq_refl)))).
  - destruct (completer_suggests_matches_or_all ["yes"; "no"; "yep"] "x")
      as (_ & _ & _ & A & _).
    apply A. intros c [<-|[<-|[<-|[]]]]; reflexivity.
Defined.

Lemma completer_on_empty_line_and_again_witness :
  In "no" (fst (completer ["yes"; "no"; "yep"] "no")).
Proof.
  exact (proj1 (proj2 (completer_on_empty_line_and_again ["yes"; "no"; "yep"] "no"))
           (or_intror (or_introl eq_refl))).
Defined.

